(** * Kamus Negeri mobile: the client-side data-access layer

    A shallow embedding of the three stateful components of the app
    (the [ApiClient] gateway, [KamusRepositoryImpl] and
    [NegeriRepositoryImpl]) together with the properties of their caching,
    invalidation, fallback and search logic.

    Conventions of the embedding.
    - A JavaScript string is a [string]: a sequence of code units below 256.
    - [Date.now()] is an integer of milliseconds, passed in explicitly; one
      reading is taken per synchronous segment of an async function.
    - An [await] on the network is an explicit outcome handed to the
      function ([Ok] payload or [Throw] error).
    - [console.log] and friends have no effect on the state and are left out.
    - [Map<string, _>] is a [gmap string _], [Set<string>] a [gset string]. *)

From stdpp Require Import base strings gmap list pretty.
From Stdlib Require Import ZArith Ascii String Lia.

Local Open Scope Z_scope.

(* ===================================================================== *)
(** ** JavaScript values, strings and exceptions *)
(* ===================================================================== *)

Module Js.

(** A thrown JavaScript error. [isAxiosError] and [code] are what
    [ApiClient.get] inspects before rethrowing. *)
Record Error := mkError {
  isAxiosError : bool;
  code : string;
  message : string
}.

(** [new Error(msg)] *)
Definition newError (msg : string) : Error :=
  {| isAxiosError := false; code := ""; message := msg |}.

(** The [TypeError] the engine throws when a property of [null] is read
    or a method of [null] is called. *)
Definition nullTypeError : Error :=
  newError "TypeError: Cannot read properties of null".

(** The [TypeError] the engine throws when an object has no way of being
    converted to a primitive. *)
Definition conversionTypeError : Error :=
  newError "TypeError: Cannot convert object to primitive value".

(** The outcome of an expression that may throw. *)
Inductive Result (A : Type) : Type :=
| Ok (a : A)
| Throw (e : Error).
Arguments Ok {A} a.
Arguments Throw {A} e.

Definition isOk {A} (r : Result A) : bool :=
  match r with Ok _ => true | Throw _ => false end.

#[local] Set Warnings "-register-all".

(** A JSON value, as [JSON.parse] produces it, plus [undefined] for an
    absent property. Numbers are the integers of magnitude up to 2^53,
    which a double holds exactly and [String] prints digit by digit. *)
Inductive JValue : Type :=
| JUndefined
| JNull
| JBool (b : bool)
| JNumber (n : Z)
| JString (s : string)
| JArray (items : list JValue)
| JObject (fields : list (string * JValue)).

(** Truthiness: what [if (v)], [!v] and [v || d] test. *)
Definition truthy (v : JValue) : bool :=
  match v with
  | JUndefined | JNull => false
  | JBool b => b
  | JNumber n => negb (n =? 0)
  | JString s => negb (String.eqb s "")
  | JArray _ | JObject _ => true
  end.

(** [parts.join(sep)] *)
Fixpoint join (sep : string) (parts : list string) : string :=
  match parts with
  | [] => ""
  | [p] => p
  | p :: rest => p +:+ sep +:+ join sep rest
  end.

(** [Object.hasOwn(o, key)] on the fields of a parsed object. *)
Definition hasOwn (key : string) (fields : list (string * JValue)) : bool :=
  existsb (fun field => String.eqb (fst field) key) fields.

(** [String(v)]. An array is its elements joined by commas, where [null]
    and [undefined] elements contribute nothing. No property of a parsed
    object is callable, so an own [toString] hides the inherited one and
    leaves the object with no conversion: a [TypeError] is thrown, also for
    an array that has such an object in it. Any other object prints through
    [Object.prototype.toString]. *)
Fixpoint stringOf (v : JValue) : Result string :=
  match v with
  | JUndefined => Ok "undefined"
  | JNull => Ok "null"
  | JBool true => Ok "true"
  | JBool false => Ok "false"
  | JNumber n => Ok (pretty n)
  | JString s => Ok s
  | JArray items =>
      match (fix parts (elements : list JValue) : Result (list string) :=
               match elements with
               | [] => Ok []
               | x :: rest =>
                   match match x with
                         | JUndefined | JNull => Ok ""
                         | _ => stringOf x
                         end with
                   | Ok p =>
                       match parts rest with
                       | Ok ps => Ok (p :: ps)
                       | Throw e => Throw e
                       end
                   | Throw e => Throw e
                   end
               end) items with
      | Ok ps => Ok (join "," ps)
      | Throw e => Throw e
      end
  | JObject fields =>
      if hasOwn "toString" fields then Throw conversionTypeError
      else Ok "[object Object]"
  end.

Definition isArray (v : JValue) : bool :=
  match v with JArray _ => true | _ => false end.

(** *** Characters *)

Definition codeUnit (c : ascii) : N := N_of_ascii c.

Definition inRange (lo hi : N) (c : ascii) : bool :=
  ((lo <=? codeUnit c) && (codeUnit c <=? hi))%N.

(** [toLowerCase] on one code unit: A-Z, and the upper-case letters of the
    Latin-1 block (all of 192..222 but the multiplication sign 215). *)
Definition lowerChar (c : ascii) : ascii :=
  if inRange 65 90 c || (inRange 192 222 c && negb (codeUnit c =? 215)%N)
  then ascii_of_N (codeUnit c + 32)
  else c.

(** The class [\w] of a regular expression without the [u] flag:
    digits, ASCII letters and the underscore. *)
Definition isWordChar (c : ascii) : bool :=
  inRange 48 57 c || inRange 65 90 c || (codeUnit c =? 95)%N || inRange 97 122 c.

(** White space as [trim] sees it: tab, line feed, vertical tab, form feed,
    carriage return, space and the no-break space. *)
Definition isWhiteSpace (c : ascii) : bool :=
  inRange 9 13 c || (codeUnit c =? 32)%N || (codeUnit c =? 160)%N.

(** *** Strings *)

(** [s.toLowerCase()] *)
Fixpoint toLowerCase (s : string) : string :=
  match s with
  | EmptyString => EmptyString
  | String c rest => String (lowerChar c) (toLowerCase rest)
  end.

Fixpoint trimStart (s : string) : string :=
  match s with
  | EmptyString => EmptyString
  | String c rest => if isWhiteSpace c then trimStart rest else s
  end.

Fixpoint trimEnd (s : string) : string :=
  match s with
  | EmptyString => EmptyString
  | String c rest =>
      match trimEnd rest with
      | EmptyString => if isWhiteSpace c then EmptyString else String c EmptyString
      | t => String c t
      end
  end.

(** [s.trim()] *)
Definition trim (s : string) : string := trimEnd (trimStart s).

(** [s.split(sep)] where the separator matches exactly the single code
    units satisfying [isSep] (a one-character string or a character class):
    every separator ends a piece, so adjacent separators give empty pieces
    and the result is never empty. *)
Fixpoint split (isSep : ascii -> bool) (s : string) : list string :=
  match s with
  | EmptyString => [EmptyString]
  | String c rest =>
      if isSep c then EmptyString :: split isSep rest
      else match split isSep rest with
           | piece :: pieces => String c piece :: pieces
           | [] => [String c EmptyString]
           end
  end.

(** [s.includes(sub)]: [sub] occurs in [s] as a contiguous substring. *)
Fixpoint includes (s sub : string) : bool :=
  if String.prefix sub s then true
  else match s with
       | EmptyString => false
       | String _ rest => includes rest sub
       end.

End Js.

(* ===================================================================== *)
(** ** ApiClient: the response cache of the request gateway *)
(* ===================================================================== *)

Module ApiClient.
Import Js.

(** [interface CacheEntry<T>] of the gateway. *)
Record CacheEntry := mkEntry {
  data : JValue;
  timestamp : Z;
  expiresAt : Z
}.

(** [requestCache : Map<string, CacheEntry<any>>] *)
Abbreviation Cache := (gmap string CacheEntry).

(** Default cache expiration time (5 minutes). *)
Definition defaultCacheExpiration : Z := 5 * 60 * 1000.

Definition baseURL : string := "https://kamus-negeri-backend.onrender.com".

(** The third argument of [get]; an absent [skipCache] is [false]. *)
Record CacheOptions := mkOptions {
  skipCache : bool;
  expirationMs : option Z
}.

(** An async method of the gateway, run up to its single [await]: either it
    has returned already, or it is suspended on a request to [url] and
    [resume] is the rest of its body, which runs when the axios promise
    settles; [resume] receives the clock reading, the settled promise and
    the cache as it is at that moment. *)
Inductive Call : Type :=
| Returned (r : Result JValue) (cache : Cache)
| Awaiting (url : string) (cache : Cache)
           (resume : Z -> Result JValue -> Cache -> Result JValue * Cache).

(** A call run to its end with nothing else touching the cache while it is
    suspended. The last component lists the urls handed to axios. *)
Definition settle (c : Call) (now' : Z) (response : Result JValue)
  : Result JValue * Cache * list string :=
  match c with
  | Returned r cache => (r, cache, [])
  | Awaiting url cache resume =>
      let '(r, cache') := resume now' response cache in (r, cache', [url])
  end.

(** [getValidCacheData(cacheKey)]: the cached data if the entry has not
    expired; an expired entry is removed. [None] is [null]. *)
Definition getValidCacheData (cacheKey : string) (now : Z) (requestCache : Cache)
  : option JValue * Cache :=
  match requestCache !! cacheKey with
  | Some cachedEntry =>
      if now <? expiresAt cachedEntry
      then (Some (data cachedEntry), requestCache)
      else (None, delete cacheKey requestCache)
  | None => (None, requestCache)
  end.

(** [expirationMs || this.defaultCacheExpiration] *)
Definition expirationOrDefault (expirationMs : option Z) : Z :=
  match expirationMs with
  | Some ms => if ms =? 0 then defaultCacheExpiration else ms
  | None => defaultCacheExpiration
  end.

(** [setCacheData(cacheKey, data, expirationMs)] *)
Definition setCacheData (cacheKey : string) (d : JValue) (expirationMs : option Z)
    (now : Z) (requestCache : Cache) : Cache :=
  let timestamp := now in
  let expiresAt := timestamp + expirationOrDefault expirationMs in
  <[cacheKey := {| data := d; timestamp := timestamp; expiresAt := expiresAt |}]>
    requestCache.

(** [url + (config?.params ? JSON.stringify(config.params) : '')], where
    [params] is the serialisation of [config.params] when there are any. *)
Definition cacheKeyOf (url : string) (params : option string) : string :=
  url +:+ match params with Some serialized => serialized | None => "" end.

(** [cacheOptions?.skipCache] *)
Definition skips (cacheOptions : option CacheOptions) : bool :=
  match cacheOptions with Some o => skipCache o | None => false end.

(** [cacheOptions?.expirationMs] *)
Definition expirationOf (cacheOptions : option CacheOptions) : option Z :=
  match cacheOptions with Some o => expirationMs o | None => None end.

(** The error [get] rethrows when nothing is cached for the key. *)
Definition rethrown (url : string) (error : Error) : Error :=
  if isAxiosError error && String.eqb (code error) "ERR_NETWORK"
  then newError ("Network error when connecting to " +:+ baseURL +:+ url +:+ ". "
                 +:+ "Please check your internet connection and API URL configuration.")
  else error.

(** The body of [get] after [await this.axiosInstance.get(url, config)]:
    the [try] block on a resolved promise, the [catch] block on a rejected
    one. A request cancelled by a newer one resolves with [data: null]. *)
Definition getAfterAwait (url : string) (params : option string)
    (cacheOptions : option CacheOptions)
    (now' : Z) (response : Result JValue) (requestCache : Cache)
  : Result JValue * Cache :=
  let cacheKey := cacheKeyOf url params in
  match response with
  | Ok responseData =>
      ( Ok responseData,
        if skips cacheOptions then requestCache
        else setCacheData cacheKey responseData (expirationOf cacheOptions) now'
               requestCache )
  | Throw error =>
      match requestCache !! cacheKey with
      | Some cachedEntry => (Ok (data cachedEntry), requestCache)
      | None => (Throw (rethrown url error), requestCache)
      end
  end.

(** [get(url, config, cacheOptions)] *)
Definition get (url : string) (params : option string)
    (cacheOptions : option CacheOptions) (now : Z) (requestCache : Cache) : Call :=
  let cacheKey := cacheKeyOf url params in
  let '(cachedData, cache1) :=
    if skips cacheOptions then (None, requestCache)
    else getValidCacheData cacheKey now requestCache in
  match cachedData with
  | Some d =>
      if truthy d then Returned (Ok d) cache1
      else Awaiting url cache1 (getAfterAwait url params cacheOptions)
  | None => Awaiting url cache1 (getAfterAwait url params cacheOptions)
  end.

(** [url.split('/')[0]]: the text of the url before its first slash. *)
Definition resourcePathOf (url : string) : string :=
  match split (Ascii.eqb "/") url with
  | first :: _ => first
  | [] => ""
  end.

(** [invalidateRelatedCache(url)]: every key that includes the resource
    path is deleted while the keys are iterated. *)
Definition invalidateRelatedCache (url : string) (requestCache : Cache) : Cache :=
  let resourcePath := resourcePathOf url in
  map_fold (fun cacheKey _ cache =>
              if includes cacheKey resourcePath then delete cacheKey cache else cache)
           requestCache requestCache.

(** The body of [post], [put] and [delete] after their [await]: related
    entries are invalidated on success, the error is rethrown on failure. *)
Definition mutationAfterAwait (url : string)
    (now' : Z) (response : Result JValue) (requestCache : Cache)
  : Result JValue * Cache :=
  match response with
  | Ok responseData => (Ok responseData, invalidateRelatedCache url requestCache)
  | Throw error => (Throw error, requestCache)
  end.

(** [post(url, data, config)] *)
Definition post (url : string) (requestCache : Cache) : Call :=
  Awaiting url requestCache (mutationAfterAwait url).

(** [put(url, data, config)] *)
Definition put (url : string) (requestCache : Cache) : Call :=
  Awaiting url requestCache (mutationAfterAwait url).

(** [delete(url, config)] *)
Definition delete_ (url : string) (requestCache : Cache) : Call :=
  Awaiting url requestCache (mutationAfterAwait url).

(** [clearCache()] *)
Definition clearCache (requestCache : Cache) : Cache := ∅.

End ApiClient.

(* ===================================================================== *)
(** ** ApiClient: the axios interceptors and the requests in flight *)
(* ===================================================================== *)

(** The two interceptors installed on the shared axios instance, which
    every [get], [post], [put], [delete] and [debugApiEndpoint] goes
    through. They own [activeRequests]; the methods of the gateway never
    touch it, and the interceptors never touch [requestCache]. Each
    interceptor runs to its end before anything else does, so the state
    advances by whole events. *)
Module Interceptors.

Inductive Method : Type := GET | POST | PUT | DELETE.

(** A request handed to the shared axios instance; [rid] numbers the
    requests in the order they were issued. *)
Record Request := mkRequest {
  rid : nat;
  method : Method;
  url : string
}.

(** How the promise of a request settled: with a response, with an error,
    or cancelled through its token (resolved as [status: 'cancelled']). *)
Inductive Outcome : Type := Completed | Failed | Cancelled.

(** [activeRequests] maps a url to the cancel-token source stored for it;
    a source is named by the [rid] of the request that carries its token.
    [inFlight] are the dispatched requests whose promise has not settled,
    [settled] logs the others, oldest first. *)
Record State := mkState {
  activeRequests : gmap string nat;
  inFlight : list Request;
  settled : list (Request * Outcome);
  issued : nat
}.

Definition initial : State :=
  {| activeRequests := ∅; inFlight := []; settled := []; issued := 0 |}.

Definition isGet (m : Method) : bool :=
  match m with GET => true | _ => false end.

(** [config.url] and [response.config.url] as conditions: a non-empty url. *)
Definition hasUrl (u : string) : bool := negb (String.eqb u "").

(** [source.cancel(...)]: the request that carries the token, if still in
    flight, is aborted and settles as cancelled. The cancellation error
    carries no request configuration, so the response interceptor deletes
    nothing for it and resolves the promise with [data: null]. *)
Definition cancel (source : nat) (st : State) : State :=
  {| activeRequests := activeRequests st;
     inFlight := List.filter (fun r => negb (Nat.eqb (rid r) source)) (inFlight st);
     settled := settled st ++
                List.map (fun r => (r, Cancelled))
                  (List.filter (fun r => Nat.eqb (rid r) source) (inFlight st));
     issued := issued st |}.

(** [cancelActiveRequest(url)] *)
Definition cancelActiveRequest (u : string) (st : State) : State :=
  match activeRequests st !! u with
  | Some source =>
      let st1 := cancel source st in
      {| activeRequests := delete u (activeRequests st1);
         inFlight := inFlight st1; settled := settled st1; issued := issued st1 |}
  | None => st
  end.

(** The request interceptor, followed by the dispatch of the request. *)
Definition issue (m : Method) (u : string) (st : State) : State :=
  let st1 :=
    if isGet m && hasUrl u then
      let st0 := cancelActiveRequest u st in
      {| activeRequests := <[u := issued st0]> (activeRequests st0);
         inFlight := inFlight st0; settled := settled st0; issued := issued st0 |}
    else st in
  {| activeRequests := activeRequests st1;
     inFlight := inFlight st1 ++ [mkRequest (issued st1) m u];
     settled := settled st1;
     issued := S (issued st1) |}.

(** The response interceptor, on the response ([how = Completed]) or the
    error ([how = Failed]) of the request [r]: in both cases the entry
    stored under the url of [r] is deleted. *)
Definition settleRequest (how : Outcome) (r : Request) (st : State) : State :=
  {| activeRequests :=
       if hasUrl (url r) then delete (url r) (activeRequests st) else activeRequests st;
     inFlight := List.filter (fun r' => negb (Nat.eqb (rid r') (rid r))) (inFlight st);
     settled := settled st ++ [(r, how)];
     issued := issued st |}.

(** What the event loop delivers: a new request, or the response or the
    error of a request in flight. *)
Inductive Event : Type :=
| Issue (m : Method) (u : string)
| Respond (id : nat)
| Fail (id : nat).

Definition deliver (how : Outcome) (id : nat) (st : State) : State :=
  match List.find (fun r => Nat.eqb (rid r) id) (inFlight st) with
  | Some r => settleRequest how r st
  | None => st
  end.

Definition step (st : State) (ev : Event) : State :=
  match ev with
  | Issue m u => issue m u st
  | Respond id => deliver Completed id st
  | Fail id => deliver Failed id st
  end.

Definition run (events : list Event) : State := foldl step initial events.

(** The GET requests to [u] that are in flight. *)
Definition getsInFlight (u : string) (st : State) : list Request :=
  List.filter (fun r => isGet (method r) && String.eqb (url r) u) (inFlight st).

Definition isGetEvent (ev : Event) : bool :=
  match ev with
  | Issue m _ => isGet m
  | _ => true
  end.

(** The bookkeeping is accurate: the requests in flight are GETs with
    distinct ids below [issued], and each one with a url is the request
    whose source [activeRequests] holds for that url. *)
Definition tracked (st : State) : Prop :=
  NoDup (List.map rid (inFlight st))
  /\ (forall r, r ∈ inFlight st -> (rid r < issued st)%nat /\ method r = GET)
  /\ (forall r, r ∈ inFlight st -> hasUrl (url r) = true ->
               activeRequests st !! url r = Some (rid r)).

End Interceptors.

(* ===================================================================== *)
(** ** Domain entities and the raw payload *)
(* ===================================================================== *)

(** [interface Kamus] *)
Module Kamus.
Record t := mk {
  id : string;
  word : string;
  meaning : string;
  example : option string;
  negeriId : string;
  negeriName : option string;
  notes : option string;
  tags : option (list string)
}.
End Kamus.

(** [interface Negeri] *)
Module Negeri.
Record t := mk {
  id : string;
  name : string;
  description : option string;
  capital : option string;
  flag : option string;
  emblem : option string
}.
End Negeri.

(** [interface KamusApiResponse]: one raw record of the backend. The text
    fields are strings, as the interface declares them, or absent
    ([None]); records that carry anything else there are not covered. The
    two identifiers are normalised with [String(...)] by the repository,
    so they are kept as the JSON value that arrived, of whatever kind
    ([JUndefined]: absent). *)
Module KamusApiResponse.

(** The nested [negeri?: { id, name }] object. *)
Record NegeriRef := mkNegeriRef {
  refId : Js.JValue;
  name : option string
}.

Record t := mk {
  id : Js.JValue;
  dialek : option string;
  maksud : option string;
  contoh_ayat : option string;
  negeri_id : Js.JValue;
  negeri : option NegeriRef
}.

End KamusApiResponse.

(* ===================================================================== *)
(** ** KamusRepositoryImpl *)
(* ===================================================================== *)

Module KamusRepositoryImpl.
Import Js.

(** [interface CacheEntry<T>] of the repository. *)
Record CacheEntry (T : Type) := mkEntry {
  data : T;
  timestamp : Z
}.
Arguments mkEntry {T} data timestamp.
Arguments data {T} c.
Arguments timestamp {T} c.

(** [searchIndex : Map<string, Set<string>>] *)
Abbreviation Index := (gmap string (gset string)).

Record State := mkState {
  kamusCache : option (CacheEntry (list Kamus.t));
  kamusByNegeriCache : gmap string (CacheEntry (list Kamus.t));
  searchIndex : Index
}.

Definition initial : State :=
  {| kamusCache := None; kamusByNegeriCache := ∅; searchIndex := ∅ |}.

(** Cache expiration time in milliseconds (10 minutes). *)
Definition cacheExpirationTime : Z := 10 * 60 * 1000.

(** [API_ENDPOINTS.KAMUS] and [API_ENDPOINTS.KAMUS_BY_NEGERI] *)
Definition KAMUS : string := "/kamus".
Definition KAMUS_BY_NEGERI (negeriId : string) : string := "/kamus/negeri/" +:+ negeriId.

(** What [apiClient.get] resolved with, as the repository inspects it:
    a falsy value ([null], also what a cancelled request resolves with),
    an array, a single object, or a truthy primitive. An element of the
    array is [None] when it is [null]; any other element is read through
    its properties (one that is no object reads as a record whose fields
    are all absent). *)
Inductive Payload : Type :=
| PFalsy
| PArray (items : list (option KamusApiResponse.t))
| PObject (item : KamusApiResponse.t)
| PScalar.

(** [text || fallback] on an optional string. *)
Definition orElse (text : option string) (fallback : string) : string :=
  match text with
  | Some s => if String.eqb s "" then fallback else s
  | None => fallback
  end.

(** [v ? String(v) : fallback] *)
Definition stringOrElse (v : JValue) (fallback : string) : Result string :=
  if truthy v then stringOf v else Ok fallback.

(** [mapApiResponseToKamus(apiResponse)]; reading a property of [null]
    throws a [TypeError], and so does [String(...)] on an identifier that
    cannot be converted. The fields are evaluated in the order written. *)
Definition mapApiResponseToKamus (now : Z) (apiResponse : option KamusApiResponse.t)
  : Result Kamus.t :=
  match apiResponse with
  | None => Throw nullTypeError
  | Some r =>
      match stringOrElse (KamusApiResponse.id r) ("unknown-" +:+ pretty now) with
      | Throw error => Throw error
      | Ok id =>
          match stringOrElse (KamusApiResponse.negeri_id r) "0" with
          | Throw error => Throw error
          | Ok negeriId =>
              Ok {| Kamus.id := id;
                    Kamus.word := orElse (KamusApiResponse.dialek r) "Unknown Word";
                    Kamus.meaning :=
                      orElse (KamusApiResponse.maksud r) "No meaning provided";
                    Kamus.example := KamusApiResponse.contoh_ayat r;
                    Kamus.negeriId := negeriId;
                    Kamus.negeriName :=
                      Some (orElse (KamusApiResponse.negeri r ≫= KamusApiResponse.name)
                              "Unknown Region");
                    Kamus.notes := None;
                    Kamus.tags := None |}
          end
      end
  end.

(** The placeholder a failed mapping is replaced with; [suffix] is
    [Math.random().toString(36).substring(2, 9)]. *)
Definition placeholder (suffix : string) (negeriId : string) : Kamus.t :=
  {| Kamus.id := "error-" +:+ suffix;
     Kamus.word := "Error loading item";
     Kamus.meaning := "There was an error processing this item";
     Kamus.example := None;
     Kamus.negeriId := negeriId;
     Kamus.negeriName := Some "Unknown";
     Kamus.notes := None;
     Kamus.tags := None |}.

(** [processedResponse.map(item => { try { ... } catch (err) { ... } })];
    [random i] is the suffix drawn if the item at index [i] fails. *)
Definition mapItems (now : Z) (random : nat -> string) (placeholderNegeriId : string)
    (processedResponse : list (option KamusApiResponse.t)) : list Kamus.t :=
  imap (fun i item =>
          match mapApiResponseToKamus now item with
          | Ok kamus => kamus
          | Throw _ => placeholder (random i) placeholderNegeriId
          end) processedResponse.

(** [tokenizeText(text)] *)
Definition tokenizeText (text : string) : list string :=
  if String.eqb text "" then []
  else
    List.filter (fun token => negb (String.eqb token ""))
      (List.map trim
        (List.filter (fun token => Nat.ltb 1 (String.length token))
          (split (fun c => negb (isWordChar c)) (toLowerCase text)))).

(** The body of [allTokens.forEach] in [buildSearchIndex]. *)
Definition addToIndex (kamusId : string) (index : Index) (token : string) : Index :=
  let index1 :=
    match index !! token with
    | Some _ => index
    | None => <[token := ∅]> index
    end in
  match index1 !! token with
  | Some ids => <[token := ids ∪ {[kamusId]}]> index1
  | None => index1
  end.

(** [buildSearchIndex(kamusList)]: the index is cleared and rebuilt. *)
Definition buildSearchIndex (kamusList : list Kamus.t) : Index :=
  foldl (fun index kamus =>
           let wordTokens := tokenizeText (Kamus.word kamus) in
           let meaningTokens := tokenizeText (Kamus.meaning kamus) in
           let allTokens := remove_dups (wordTokens ++ meaningTokens) in
           foldl (addToIndex (Kamus.id kamus)) index allTokens)
        ∅ kamusList.

(** [isCacheValid(cache)] *)
Definition isCacheValid {T} (now : Z) (cache : option (CacheEntry T)) : bool :=
  match cache with
  | None => false
  | Some c => now - timestamp c <? cacheExpirationTime
  end.

(** The part of the [try] block that [getAllKamus] and
    [getKamusByNegeriId] have in common, from the fetched response to the
    mapped list. *)
Definition processResponse (now' : Z) (random : nat -> string)
    (placeholderNegeriId : string) (response : Result Payload)
  : Result (list Kamus.t) :=
  match response with
  | Throw error => Throw error
  | Ok PFalsy => Throw (newError "API response is null or undefined")
  | Ok PScalar => Throw (newError "Invalid API response format: cannot convert to array")
  | Ok (PObject item) => Ok (mapItems now' random placeholderNegeriId [Some item])
  | Ok (PArray items) => Ok (mapItems now' random placeholderNegeriId items)
  end.

(** The fetch of a list fails when [apiClient.get] rejects, or resolves
    with something that is neither an array nor an object: the cases in
    which the [try] block throws and the [catch] block logs an error
    fetching the data. *)
Definition fetchFails (response : Result Payload) : bool :=
  match response with
  | Throw _ | Ok PFalsy | Ok PScalar => true
  | Ok (PArray _) | Ok (PObject _) => false
  end.

(** [getAllKamus()]. [now] is the clock before the fetch, [now'] after it,
    [response] what [apiClient.get(API_ENDPOINTS.KAMUS)] settles with. The
    last component lists the endpoints that were fetched. *)
Definition getAllKamus (now now' : Z) (random : nat -> string)
    (response : Result Payload) (st : State)
  : Result (list Kamus.t) * State * list string :=
  let fetched :=
    (* the [try] block from the fetch on, then the [catch] block *)
    match processResponse now' random "0" response with
    | Ok kamusList =>
        ( Ok kamusList,
          {| kamusCache := Some {| data := kamusList; timestamp := now' |};
             kamusByNegeriCache := kamusByNegeriCache st;
             searchIndex := buildSearchIndex kamusList |},
          [KAMUS] )
    | Throw error =>
        match kamusCache st with
        | Some stale => (Ok (data stale), st, [KAMUS])
        | None => (Throw error, st, [KAMUS])
        end
    end in
  match kamusCache st with
  | Some c => if isCacheValid now (kamusCache st) then (Ok (data c), st, []) else fetched
  | None => fetched
  end.

(** [list.find(kamus => kamus.id === id)] *)
Definition findById (id : string) (kamusList : list Kamus.t) : option Kamus.t :=
  List.find (fun kamus => String.eqb (Kamus.id kamus) id) kamusList.

(** [getKamusById(id)]; [None] in the result is [null]. *)
Definition getKamusById (id : string) (now now' : Z) (random : nat -> string)
    (response : Result Payload) (st : State)
  : Result (option Kamus.t) * State * list string :=
  let viaAll :=
    match getAllKamus now now' random response st with
    | (Ok allKamus, st', fetches) => (Ok (findById id allKamus), st', fetches)
    | (Throw error, st', fetches) => (Throw error, st', fetches)
    end in
  match kamusCache st with
  | Some c =>
      if isCacheValid now (kamusCache st) then
        match findById id (data c) with
        | Some cachedKamus => (Ok (Some cachedKamus), st, [])
        | None => viaAll
        end
      else viaAll
  | None => viaAll
  end.

(** [getKamusByNegeriId(negeriId)] *)
Definition getKamusByNegeriId (negeriId : string) (now now' : Z)
    (random : nat -> string) (response : Result Payload) (st : State)
  : Result (list Kamus.t) * State * list string :=
  let fetched :=
    match processResponse now' random negeriId response with
    | Ok kamusList =>
        ( Ok kamusList,
          {| kamusCache := kamusCache st;
             kamusByNegeriCache :=
               <[negeriId := {| data := kamusList; timestamp := now' |}]>
                 (kamusByNegeriCache st);
             searchIndex := searchIndex st |},
          [KAMUS_BY_NEGERI negeriId] )
    | Throw error =>
        match kamusByNegeriCache st !! negeriId with
        | Some stale => (Ok (data stale), st, [KAMUS_BY_NEGERI negeriId])
        | None => (Throw error, st, [KAMUS_BY_NEGERI negeriId])
        end
    end in
  match kamusByNegeriCache st !! negeriId with
  | Some cachedEntry =>
      if isCacheValid now (Some cachedEntry) then (Ok (data cachedEntry), st, [])
      else fetched
  | None => fetched
  end.

(** The filter used for short keywords and as the fallback:
    [kamus.word.toLowerCase().includes(k) || kamus.meaning.toLowerCase().includes(k)]
    with [k = trimmedKeyword.toLowerCase()]. *)
Definition simpleFilter (trimmedKeyword : string) (allKamus : list Kamus.t)
  : list Kamus.t :=
  let lowercaseKeyword := toLowerCase trimmedKeyword in
  List.filter (fun kamus =>
                 includes (toLowerCase (Kamus.word kamus)) lowercaseKeyword
                 || includes (toLowerCase (Kamus.meaning kamus)) lowercaseKeyword)
              allKamus.

(** The body of [searchTokens.forEach]: a token the index knows narrows
    [matchingIds]; [None] is [undefined]. *)
Definition matchToken (index : Index) (matchingIds : option (gset string))
    (token : string) : option (gset string) :=
  match index !! token with
  | Some tokenMatches =>
      match matchingIds with
      | None => Some tokenMatches
      | Some ids => Some (filter (fun id => id ∈ tokenMatches) ids)
      end
  | None => matchingIds
  end.

(** [searchKamus] once the entries are loaded and the index is in place. *)
Definition searchLoaded (trimmedKeyword : string) (allKamus : list Kamus.t)
    (index : Index) : list Kamus.t :=
  if Nat.leb (String.length trimmedKeyword) 2 then simpleFilter trimmedKeyword allKamus
  else
    let searchTokens := tokenizeText trimmedKeyword in
    match searchTokens with
    | [] => []
    | _ =>
        match foldl (matchToken index) None searchTokens with
        | None => simpleFilter trimmedKeyword allKamus
        | Some matchingIds =>
            if Nat.eqb (size matchingIds) 0 then simpleFilter trimmedKeyword allKamus
            else List.filter (fun kamus => bool_decide (Kamus.id kamus ∈ matchingIds))
                   allKamus
        end
    end.

(** [if (this.searchIndex.size === 0) this.buildSearchIndex(allKamus)] *)
Definition ensureIndex (allKamus : list Kamus.t) (st : State) : State :=
  if Nat.eqb (size (searchIndex st)) 0
  then {| kamusCache := kamusCache st;
          kamusByNegeriCache := kamusByNegeriCache st;
          searchIndex := buildSearchIndex allKamus |}
  else st.

(** [searchKamus(keyword)] *)
Definition searchKamus (keyword : string) (now now' : Z) (random : nat -> string)
    (response : Result Payload) (st : State)
  : Result (list Kamus.t) * State * list string :=
  let trimmedKeyword := trim keyword in
  if String.eqb trimmedKeyword "" then (Ok [], st, [])
  else
    match getAllKamus now now' random response st with
    | (Throw error, st', fetches) => (Throw error, st', fetches)
    | (Ok allKamus, st', fetches) =>
        let st'' := ensureIndex allKamus st' in
        (Ok (searchLoaded trimmedKeyword allKamus (searchIndex st'')), st'', fetches)
    end.

(** [clearCache()] *)
Definition clearCache (st : State) : State :=
  {| kamusCache := None; kamusByNegeriCache := ∅; searchIndex := ∅ |}.

(** [clearNegeriCache(negeriId)] *)
Definition clearNegeriCache (negeriId : string) (st : State) : State :=
  {| kamusCache := kamusCache st;
     kamusByNegeriCache := delete negeriId (kamusByNegeriCache st);
     searchIndex := searchIndex st |}.

(** The state with another search index in place. *)
Definition withIndex (index : Index) (st : State) : State :=
  {| kamusCache := kamusCache st;
     kamusByNegeriCache := kamusByNegeriCache st;
     searchIndex := index |}.

End KamusRepositoryImpl.

(* ===================================================================== *)
(** ** What the specification says a search returns *)
(* ===================================================================== *)

Module SearchSpec.

(** [text] contains [keyword] as a substring, letter case ignored. *)
Definition containsIgnoringCase (text keyword : string) : Prop :=
  exists pre post, Js.toLowerCase text = pre +:+ Js.toLowerCase keyword +:+ post.

(** The direct scan: the entries of [allKamus] whose word or meaning
    contains the keyword. *)
Definition directScan (keyword : string) (allKamus result : list Kamus.t) : Prop :=
  forall kamus, kamus ∈ result <->
    kamus ∈ allKamus /\
    (containsIgnoringCase (Kamus.word kamus) keyword
     \/ containsIgnoringCase (Kamus.meaning kamus) keyword).

(** [id] is in the id-set the index holds for [token]. *)
Definition inIdSet (index : gmap string (gset string)) (token id : string) : Prop :=
  exists ids, index !! token = Some ids /\ id ∈ ids.

(** The tokens of an entry: those of its word and of its meaning. *)
Definition tokensOf (kamus : Kamus.t) : list string :=
  KamusRepositoryImpl.tokenizeText (Kamus.word kamus)
  ++ KamusRepositoryImpl.tokenizeText (Kamus.meaning kamus).

(** [id] is in the id-set the index holds for every one of the tokens. *)
Definition inEveryIdSet (index : gmap string (gset string)) (tokens : list string)
    (id : string) : Prop :=
  forall token, token ∈ tokens -> exists ids, index !! token = Some ids /\ id ∈ ids.

(** AND semantics: the result is the entries whose id lies in the
    intersection of the id-sets of all tokens. *)
Definition andSemantics (index : gmap string (gset string)) (tokens : list string)
    (allKamus result : list Kamus.t) : Prop :=
  forall kamus, kamus ∈ result <->
    kamus ∈ allKamus /\ inEveryIdSet index tokens (Kamus.id kamus).

End SearchSpec.

(* ===================================================================== *)
(** ** What the mapping of a fetched list has to deliver *)
(* ===================================================================== *)

Module MappingSpec.
Import Js KamusRepositoryImpl.

(** [kamusList] is the raw list [items] mapped item by item: it has the
    same length; where the mapping of an item succeeds, the entry is in
    the place of the item, with a non-empty id unless the raw id is an
    array and a non-empty region id unless the raw region id is an array;
    where it throws, the placeholder is in the place of the item, its id
    tagged with a random suffix and its region id the one given. *)
Definition mapsEveryItem (now' : Z) (random : nat -> string)
    (placeholderNegeriId : string) (items : list (option KamusApiResponse.t))
    (kamusList : list Kamus.t) : Prop :=
  List.length kamusList = List.length items
  /\ forall i item,
       items !! i = Some item ->
       match mapApiResponseToKamus now' item with
       | Ok kamus =>
           kamusList !! i = Some kamus
           /\ (forall raw, item = Some raw ->
                 isArray (KamusApiResponse.id raw) = false -> Kamus.id kamus <> "")
           /\ (forall raw, item = Some raw ->
                 isArray (KamusApiResponse.negeri_id raw) = false ->
                 Kamus.negeriId kamus <> "")
       | Throw _ =>
           exists kamus,
             kamusList !! i = Some kamus
             /\ kamus = placeholder (random i) placeholderNegeriId
             /\ Kamus.id kamus = "error-" +:+ random i
             /\ Kamus.negeriId kamus = placeholderNegeriId
       end.

End MappingSpec.

(* ===================================================================== *)
(** ** NegeriRepositoryImpl *)
(* ===================================================================== *)

Module NegeriRepositoryImpl.
Import Js.

(** [interface CacheEntry<T>] of the repository. *)
Record CacheEntry (T : Type) := mkEntry {
  data : T;
  timestamp : Z
}.
Arguments mkEntry {T} data timestamp.
Arguments data {T} c.
Arguments timestamp {T} c.

(** What [apiClient.get<Negeri[]>] and [apiClient.get<Negeri>] resolve
    with is used as it comes: the list or the region the backend sent, or
    [null] ([None]), which is what the gateway resolves with when the
    request was superseded by a newer one to the same url. The caches hold
    whatever was stored, [null] included. *)
Record State := mkState {
  negeriCache : option (CacheEntry (option (list Negeri.t)));
  negeriByIdCache : gmap string (CacheEntry (option Negeri.t))
}.

Definition initial : State := {| negeriCache := None; negeriByIdCache := ∅ |}.

(** Cache expiration time in milliseconds (15 minutes). *)
Definition cacheExpirationTime : Z := 15 * 60 * 1000.

(** [API_ENDPOINTS.NEGERI] and the by-id endpoint built from it. *)
Definition NEGERI : string := "/negeri".
Definition NEGERI_BY_ID (id : string) : string := NEGERI +:+ "/" +:+ id.

(** [isCacheValid(cache)] *)
Definition isCacheValid {T} (now : Z) (cache : option (CacheEntry T)) : bool :=
  match cache with
  | None => false
  | Some c => now - timestamp c <? cacheExpirationTime
  end.

(** [this.negeriByIdCache.set(id, { data: negeri, timestamp: Date.now() })] *)
Definition setById (id : string) (negeri : option Negeri.t) (now : Z) (st : State)
  : State :=
  {| negeriCache := negeriCache st;
     negeriByIdCache := <[id := {| data := negeri; timestamp := now |}]> (negeriByIdCache st) |}.

(** [getAllNegeri()]. [now] is the clock before the fetch, [now'] after it,
    [response] what [apiClient.get(API_ENDPOINTS.NEGERI)] settles with.
    The cache is written before the list is walked: on [null] the walk
    ([negeriList.forEach]) throws, and the [catch] block returns the data
    of the cache just written, which is [null]. *)
Definition getAllNegeri (now now' : Z) (response : Result (option (list Negeri.t)))
    (st : State)
  : Result (option (list Negeri.t)) * State * list string :=
  let fetched :=
    match response with
    | Ok body =>
        let st1 := {| negeriCache := Some {| data := body; timestamp := now' |};
                      negeriByIdCache := negeriByIdCache st |} in
        match body with
        | Some negeriList =>
            ( Ok (Some negeriList),
              foldl (fun s negeri => setById (Negeri.id negeri) (Some negeri) now' s)
                st1 negeriList,
              [NEGERI] )
        | None => (Ok None, st1, [NEGERI])
        end
    | Throw error =>
        match negeriCache st with
        | Some stale => (Ok (data stale), st, [NEGERI])
        | None => (Throw error, st, [NEGERI])
        end
    end in
  match negeriCache st with
  | Some c => if isCacheValid now (negeriCache st) then (Ok (data c), st, []) else fetched
  | None => fetched
  end.

(** [list.find(negeri => negeri.id === id)] *)
Definition findById (id : string) (negeriList : list Negeri.t) : option Negeri.t :=
  List.find (fun negeri => String.eqb (Negeri.id negeri) id) negeriList.

(** [list.find(...)] on what may be [null], where the call throws. *)
Definition scan (id : string) (negeriList : option (list Negeri.t))
  : Result (option Negeri.t) :=
  match negeriList with
  | Some l => Ok (findById id l)
  | None => Throw nullTypeError
  end.

(** The outer [catch] block of [getNegeriById]: the per-id entry, stale as
    it may be, or the error. *)
Definition staleOrThrow (id : string) (error : Error) (st : State)
    (fetches : list string)
  : Result (option Negeri.t) * State * list string :=
  match negeriByIdCache st !! id with
  | Some stale => (Ok (data stale), st, fetches)
  | None => (Throw error, st, fetches)
  end.

(** The [catch (directError)] block of [getNegeriById], with the outer
    [catch] block for what it throws. *)
Definition fallBackToFullList (id : string) (now1 now2 : Z)
    (listResponse : Result (option (list Negeri.t))) (st : State)
  : Result (option Negeri.t) * State * list string :=
  match getAllNegeri now1 now2 listResponse st with
  | (Ok allNegeri, st', fetches) =>
      match scan id allNegeri with
      | Ok (Some foundNegeri) =>
          (Ok (Some foundNegeri), setById id (Some foundNegeri) now2 st', fetches)
      | Ok None => (Ok None, st', fetches)
      | Throw error => staleOrThrow id error st' fetches
      end
  | (Throw error, st', fetches) => staleOrThrow id error st' fetches
  end.

(** The inner [try] of [getNegeriById]: the direct fetch, whose result is
    stored and returned as it comes, then the fallback. *)
Definition fetchDirect (id : string) (now1 now2 : Z)
    (pointResponse : Result (option Negeri.t))
    (listResponse : Result (option (list Negeri.t))) (st : State)
  : Result (option Negeri.t) * State * list string :=
  match pointResponse with
  | Ok negeri => (Ok negeri, setById id negeri now1 st, [NEGERI_BY_ID id])
  | Throw directError =>
      let '(r, st', fetches) := fallBackToFullList id now1 now2 listResponse st in
      (r, st', NEGERI_BY_ID id :: fetches)
  end.

(** The second step of [getNegeriById]: the main cache, if valid. *)
Definition fromMainCache (id : string) (now0 : Z) (st : State)
  : Result (option Negeri.t) :=
  match negeriCache st with
  | Some c => if isCacheValid now0 (negeriCache st) then scan id (data c) else Ok None
  | None => Ok None
  end.

(** [getNegeriById(id)]; [None] in the result is [null]. [now0] is the
    clock at the call, [now1] when the direct fetch has settled, [now2]
    when [getAllNegeri] has returned; [pointResponse] and [listResponse]
    are what the two endpoints settle with if they are fetched. *)
Definition getNegeriById (id : string) (now0 now1 now2 : Z)
    (pointResponse : Result (option Negeri.t))
    (listResponse : Result (option (list Negeri.t))) (st : State)
  : Result (option Negeri.t) * State * list string :=
  let afterIndividual :=
    match fromMainCache id now0 st with
    | Ok (Some cachedNegeri) =>
        (Ok (Some cachedNegeri), setById id (Some cachedNegeri) now0 st, [])
    | Ok None => fetchDirect id now1 now2 pointResponse listResponse st
    | Throw error => staleOrThrow id error st []
    end in
  match negeriByIdCache st !! id with
  | Some cachedEntry =>
      if isCacheValid now0 (Some cachedEntry) then (Ok (data cachedEntry), st, [])
      else afterIndividual
  | None => afterIndividual
  end.

(** [clearCache()] *)
Definition clearCache (st : State) : State :=
  {| negeriCache := None; negeriByIdCache := ∅ |}.

(** [clearNegeriCache(id)] *)
Definition clearNegeriCache (id : string) (st : State) : State :=
  {| negeriCache := negeriCache st; negeriByIdCache := delete id (negeriByIdCache st) |}.

End NegeriRepositoryImpl.

(* ===================================================================== *)
(** ** What backfilling the per-id cache of regions means *)
(* ===================================================================== *)

Module LookupSpec.
Import NegeriRepositoryImpl.

(** [st'] is [st] with [negeri] stored under [id] at time [now] in the
    per-id cache, and nothing else changed. *)
Definition backfilled (id : string) (negeri : option Negeri.t) (now : Z)
    (st st' : State) : Prop :=
  negeriByIdCache st' !! id = Some {| data := negeri; timestamp := now |}
  /\ negeriCache st' = negeriCache st
  /\ forall other, other <> id ->
       negeriByIdCache st' !! other = negeriByIdCache st !! other.

End LookupSpec.

(* ===================================================================== *)
(** ** Concrete scenarios *)
(* ===================================================================== *)

(** The states and inputs the examples below are evaluated on. *)
Module Scenario.
Import Js.

(** A gateway cache holding the regions list and the entries list, both
    stored at time 0 with the default window. *)
Definition regionsEntry : ApiClient.CacheEntry :=
  {| ApiClient.data := JArray [JString "Johor"];
     ApiClient.timestamp := 0; ApiClient.expiresAt := 300000 |}.
Definition entriesEntry : ApiClient.CacheEntry :=
  {| ApiClient.data := JArray [JString "gostan"];
     ApiClient.timestamp := 0; ApiClient.expiresAt := 300000 |}.
Definition twoResources : ApiClient.Cache :=
  <["/negeri" := regionsEntry]> (<["/kamus" := entriesEntry]> ∅).

(** An axios error of a request that got no response. *)
Definition networkError : Error :=
  {| isAxiosError := true; code := "ERR_NETWORK"; message := "Network Error" |}.

(** A raw record whose id arrived as an empty JSON array. *)
Definition rawWithArrayId : KamusApiResponse.t :=
  {| KamusApiResponse.id := JArray [];
     KamusApiResponse.dialek := Some "gostan";
     KamusApiResponse.maksud := Some "undur";
     KamusApiResponse.contoh_ayat := None;
     KamusApiResponse.negeri_id := JNumber 7;
     KamusApiResponse.negeri :=
       Some {| KamusApiResponse.refId := JNumber 7;
               KamusApiResponse.name := Some "Perak" |} |}.

(** A well-formed raw record. *)
Definition rawRecord (id : Z) (dialek maksud : string) : KamusApiResponse.t :=
  {| KamusApiResponse.id := JNumber id;
     KamusApiResponse.dialek := Some dialek;
     KamusApiResponse.maksud := Some maksud;
     KamusApiResponse.contoh_ayat := None;
     KamusApiResponse.negeri_id := JNumber 7;
     KamusApiResponse.negeri :=
       Some {| KamusApiResponse.refId := JNumber 7;
               KamusApiResponse.name := Some "Perak" |} |}.

(** The random suffixes drawn for failed items. *)
Definition suffixes (i : nat) : string := "k3x9q" +:+ pretty i.

(** Two mapped entries, and a repository that cached them at time 1000
    and indexed them. *)
Definition gostan : Kamus.t :=
  {| Kamus.id := "1"; Kamus.word := "Gostan"; Kamus.meaning := "undur ke belakang";
     Kamus.example := None; Kamus.negeriId := "7"; Kamus.negeriName := Some "Perak";
     Kamus.notes := None; Kamus.tags := None |}.
Definition kona : Kamus.t :=
  {| Kamus.id := "2"; Kamus.word := "Kona"; Kamus.meaning := "belok di selekoh";
     Kamus.example := None; Kamus.negeriId := "7"; Kamus.negeriName := Some "Perak";
     Kamus.notes := None; Kamus.tags := None |}.
Definition loaded : KamusRepositoryImpl.State :=
  {| KamusRepositoryImpl.kamusCache :=
       Some {| KamusRepositoryImpl.data := [gostan; kona];
               KamusRepositoryImpl.timestamp := 1000 |};
     KamusRepositoryImpl.kamusByNegeriCache := ∅;
     KamusRepositoryImpl.searchIndex :=
       KamusRepositoryImpl.buildSearchIndex [gostan; kona] |}.

(** A region, and a region repository whose only cached data is a per-id
    entry for it stored at time 0. *)
Definition perak : Negeri.t :=
  {| Negeri.id := "7"; Negeri.name := "Perak"; Negeri.description := None;
     Negeri.capital := Some "Ipoh"; Negeri.flag := None; Negeri.emblem := None |}.
Definition onlyPerakById : NegeriRepositoryImpl.State :=
  {| NegeriRepositoryImpl.negeriCache := None;
     NegeriRepositoryImpl.negeriByIdCache :=
       {[ "7" := {| NegeriRepositoryImpl.data := Some perak;
                    NegeriRepositoryImpl.timestamp := 0 |} ]} |}.

(** A region repository whose full-list fetch was superseded at time 1:
    the gateway resolved with [null], and that is what the cache holds. *)
Definition listSuperseded : NegeriRepositoryImpl.State :=
  {| NegeriRepositoryImpl.negeriCache :=
       Some {| NegeriRepositoryImpl.data := None;
               NegeriRepositoryImpl.timestamp := 1 |};
     NegeriRepositoryImpl.negeriByIdCache := ∅ |}.

End Scenario.

(* ===================================================================== *)
(** ** The ledger of requests *)
(* ===================================================================== *)

Module Ledger.
Import Interceptors.

(** The ids of all requests the state knows of: those in flight, then
    those settled. *)
Definition requestIds (st : State) : list nat :=
  List.map rid (inFlight st) ++ List.map (fun p => rid (fst p)) (settled st).

Definition isIssue (ev : Event) : bool :=
  match ev with Issue _ _ => true | _ => false end.

(** The number of requests a sequence of events issues. *)
Definition issues (events : list Event) : nat :=
  List.length (List.filter isIssue events).

End Ledger.

(* ===================================================================== *)
(** ** Sequences of calls on the entry repository *)
(* ===================================================================== *)

Module KamusUse.
Import Js KamusRepositoryImpl.

(** A call of a public method of the repository, with the clock readings,
    random suffixes and gateway response it runs with. *)
Inductive Call : Type :=
| GetAllKamus (now now' : Z) (random : nat -> string) (response : Result Payload)
| GetKamusById (id : string) (now now' : Z) (random : nat -> string)
               (response : Result Payload)
| GetKamusByNegeriId (negeriId : string) (now now' : Z) (random : nat -> string)
                     (response : Result Payload)
| SearchKamus (keyword : string) (now now' : Z) (random : nat -> string)
              (response : Result Payload)
| ClearCache
| ClearNegeriCache (negeriId : string).

(** The state a call leaves behind. *)
Definition exec (st : State) (call : Call) : State :=
  match call with
  | GetAllKamus now now' random response =>
      (getAllKamus now now' random response st).1.2
  | GetKamusById id now now' random response =>
      (getKamusById id now now' random response st).1.2
  | GetKamusByNegeriId negeriId now now' random response =>
      (getKamusByNegeriId negeriId now now' random response st).1.2
  | SearchKamus keyword now now' random response =>
      (searchKamus keyword now now' random response st).1.2
  | ClearCache => clearCache st
  | ClearNegeriCache negeriId => clearNegeriCache negeriId st
  end.

(** The state of a fresh repository after a sequence of calls, each one
    awaited before the next. *)
Definition after (calls : list Call) : State := foldl exec initial calls.

(** The full list the repository holds, fresh or stale; none is empty. *)
Definition cachedList (st : State) : list Kamus.t :=
  match kamusCache st with
  | Some c => data c
  | None => []
  end.

(** The search index is the one built from the cached full list. *)
Definition indexInSync (st : State) : Prop :=
  searchIndex st = buildSearchIndex (cachedList st).

(** An entry has text to show: a word, a meaning and a region name, none
    of them empty. *)
Definition hasText (kamus : Kamus.t) : Prop :=
  Kamus.word kamus <> "" /\ Kamus.meaning kamus <> ""
  /\ exists name, Kamus.negeriName kamus = Some name /\ name <> "".

(** Every entry the repository holds, in the full list or in the list of
    a region, has text to show. *)
Definition allHaveText (st : State) : Prop :=
  Forall hasText (cachedList st)
  /\ map_Forall (fun _ c => Forall hasText (data c)) (kamusByNegeriCache st).

End KamusUse.

(* ===================================================================== *)
(** * Properties *)
(* ===================================================================== *)

(** ** Strings *)

Section StringFacts.
Import Js.

Lemma prefix_spec (sub s : string) :
  String.prefix sub s = true <-> exists post, s = sub +:+ post.
Proof.
  revert s. induction sub as [|c sub IH]; intros s; simpl.
  - split; [intros _; exists s; reflexivity | intros _; by destruct s].
  - destruct s as [|d s]; simpl.
    + split; [discriminate | intros [post H]; discriminate].
    + destruct (ascii_dec c d) as [->|Hne].
      * rewrite IH. split; intros [post H]; exists post.
        -- by rewrite H.
        -- by injection H.
      * split; [discriminate | intros [post H]; injection H; congruence].
Qed.

Lemma includes_unfold (s sub : string) :
  includes s sub =
  if String.prefix sub s then true
  else match s with
       | EmptyString => false
       | String _ rest => includes rest sub
       end.
Proof. by destruct s. Qed.

(** [includes] decides the occurrence of a contiguous substring. *)
Lemma includes_spec (s sub : string) :
  includes s sub = true <-> exists pre post, s = pre +:+ sub +:+ post.
Proof.
  induction s as [|c s IH]; rewrite includes_unfold.
  - destruct (String.prefix sub "") eqn:Hp.
    + split; [intros _ | reflexivity].
      apply prefix_spec in Hp as [post Hp]. by exists "", post.
    + split; [discriminate|]. intros [pre [post H]].
      destruct pre; [|discriminate]. simpl in H.
      assert (String.prefix sub "" = true) by (apply prefix_spec; eauto).
      congruence.
  - destruct (String.prefix sub (String c s)) eqn:Hp.
    + split; [intros _ | reflexivity].
      apply prefix_spec in Hp as [post Hp]. by exists "", post.
    + rewrite IH. split.
      * intros [pre [post H]]. exists (String c pre), post. simpl. by rewrite H.
      * intros [pre [post H]]. destruct pre as [|d pre]; simpl in H.
        -- assert (String.prefix sub (String c s) = true) by (apply prefix_spec; eauto).
           congruence.
        -- injection H as _ H. eauto.
Qed.

Lemma includes_empty (s : string) : includes s "" = true.
Proof. destruct s; reflexivity. Qed.

Lemma split_nonempty (isSep : ascii -> bool) (s : string) : split isSep s <> [].
Proof.
  destruct s as [|c s]; simpl; [discriminate|].
  destruct (isSep c); [discriminate|]. destruct (split isSep s); discriminate.
Qed.

End StringFacts.

(** ** The gateway's response cache *)

Section GatewayCache.
Import Js ApiClient Scenario.

(** A url that starts with a slash has the empty resource path. *)
Lemma resourcePathOf_leading_slash (path : string) :
  resourcePathOf (String "/" path) = "".
Proof. reflexivity. Qed.

(** A url without a leading slash: the resource path is a prefix of it. *)
Lemma resourcePathOf_prefix (url : string) :
  String.prefix (resourcePathOf url) url = true.
Proof.
  unfold resourcePathOf. induction url as [|c url IH]; cbn [split]; [reflexivity|].
  destruct (Ascii.eqb "/" c) eqn:Hc; [reflexivity|].
  destruct (split (Ascii.eqb "/") url) as [|p ps] eqn:Hs.
  - by destruct (split_nonempty _ _ Hs).
  - cbn [String.prefix]. destruct (ascii_dec c c); [exact IH | congruence].
Qed.

Lemma invalidate_fold_lookup (resourcePath : string) (start iterated : Cache) (k : string) :
  map_fold (fun cacheKey (_ : CacheEntry) cache =>
              if includes cacheKey resourcePath then delete cacheKey cache else cache)
           start iterated !! k
  = match iterated !! k with
    | Some _ => if includes k resourcePath then None else start !! k
    | None => start !! k
    end.
Proof.
  revert k.
  apply (map_fold_weak_ind (fun (r m : Cache) => forall k,
    r !! k = match m !! k with
             | Some _ => if includes k resourcePath then None else start !! k
             | None => start !! k
             end)).
  - intros k. by rewrite lookup_empty.
  - intros i x m r Hi IH k. destruct (decide (i = k)) as [->|Hne].
    + rewrite lookup_insert_eq. destruct (includes k resourcePath).
      * by rewrite lookup_delete_eq.
      * by rewrite IH, Hi.
    + rewrite lookup_insert_ne by done. destruct (includes i resourcePath).
      * rewrite lookup_delete_ne by done. apply IH.
      * apply IH.
Qed.

(** What invalidation does to each key: it goes exactly when it includes
    the resource path of the mutated url. *)
Lemma invalidateRelatedCache_lookup (url : string) (requestCache : Cache) (k : string) :
  invalidateRelatedCache url requestCache !! k
  = if includes k (resourcePathOf url) then None else requestCache !! k.
Proof.
  unfold invalidateRelatedCache. rewrite invalidate_fold_lookup.
  destruct (requestCache !! k) eqn:Hk; [done|]. by destruct (includes _ _).
Qed.

(** A successful mutation of a url that starts with a slash empties the
    response cache, whatever was cached and under whatever key. *)
Lemma mutation_of_absolute_path_clears_cache (path : string) (now' : Z)
    (body : JValue) (requestCache : Cache) :
  mutationAfterAwait (String "/" path) now' (Ok body) requestCache = (Ok body, ∅).
Proof.
  unfold mutationAfterAwait. f_equal. apply map_eq. intros k.
  rewrite invalidateRelatedCache_lookup, resourcePathOf_leading_slash, includes_empty.
  by rewrite lookup_empty.
Qed.

(** A failed mutation rethrows and has no effect on the cache. *)
Lemma mutation_failure_keeps_cache (url : string) (now' : Z) (error : Error)
    (requestCache : Cache) :
  mutationAfterAwait url now' (Throw error) requestCache = (Throw error, requestCache).
Proof. reflexivity. Qed.

(** C1, at the failing input: with the regions list cached under
    ["/negeri"] and the entries list under ["/kamus"], a successful POST to
    ["/kamus"] leaves nothing cached; the entry under ["/negeri"], whose
    leading path segment differs from the mutated one, is evicted too. *)
Theorem post_to_entries_evicts_cached_regions :
  twoResources !! "/negeri" = Some regionsEntry /\
  settle (post "/kamus" twoResources) 1000 (Ok JNull) = (Ok JNull, ∅, ["/kamus"]) /\
  (settle (post "/kamus" twoResources) 1000 (Ok JNull)).1.2 !! "/negeri" = None.
Proof.
  split; [reflexivity|].
  assert (settle (post "/kamus" twoResources) 1000 (Ok JNull) = (Ok JNull, ∅, ["/kamus"])) as H.
  { unfold settle, post. by rewrite mutation_of_absolute_path_clears_cache. }
  split; [exact H|]. by rewrite H.
Qed.

(** A successful POST, PUT or DELETE of a url that starts with a slash
    leaves the response cache empty. *)
Theorem mutations_of_absolute_paths_clear_the_cache (path : string) (now' : Z)
    (body : JValue) (requestCache : Cache) :
  settle (post (String "/" path) requestCache) now' (Ok body)
    = (Ok body, ∅, [String "/" path])
  /\ settle (put (String "/" path) requestCache) now' (Ok body)
      = (Ok body, ∅, [String "/" path])
  /\ settle (delete_ (String "/" path) requestCache) now' (Ok body)
      = (Ok body, ∅, [String "/" path]).
Proof.
  unfold settle, post, put, delete_.
  rewrite mutation_of_absolute_path_clears_cache. done.
Qed.

(** A successful mutation evicts a key exactly when the key contains,
    anywhere, the text of the mutated url before its first slash; the
    entries that stay are unchanged. *)
Theorem mutation_evicts_keys_containing_resource_path (url : string) (now' : Z)
    (body : JValue) (requestCache : Cache) (k : string) :
  (mutationAfterAwait url now' (Ok body) requestCache).2 !! k
  = if includes k (resourcePathOf url) then None else requestCache !! k.
Proof. apply invalidateRelatedCache_lookup. Qed.

(** A successful mutation evicts every key that starts with the same
    resource path as the mutated url. *)
Theorem mutation_evicts_keys_with_the_same_resource_path (url : string) (now' : Z)
    (body : JValue) (requestCache : Cache) (k : string) :
  resourcePathOf k = resourcePathOf url ->
  (mutationAfterAwait url now' (Ok body) requestCache).2 !! k = None.
Proof.
  intros Hsame. cbn [mutationAfterAwait snd]. rewrite invalidateRelatedCache_lookup.
  assert (includes k (resourcePathOf url) = true) as ->; [|done].
  apply includes_spec. rewrite <- Hsame.
  destruct (proj1 (prefix_spec _ _) (resourcePathOf_prefix k)) as [post Hpost].
  by exists "", post.
Qed.

Lemma mutation_evicts_keys_with_the_same_resource_path_witness :
  (mutationAfterAwait "kamus/3" 1000 (Ok JNull)
     (<["kamus/negeri/5" := entriesEntry]> (<["negeri" := regionsEntry]> ∅))).2
    !! "kamus/negeri/5" = None.
Proof.
  apply (mutation_evicts_keys_with_the_same_resource_path "kamus/3" 1000 JNull
           (<["kamus/negeri/5" := entriesEntry]> (<["negeri" := regionsEntry]> ∅))
           "kamus/negeri/5").
  reflexivity.
Defined.

End GatewayCache.

Section GatewayGet.
Import Js ApiClient Scenario.

Lemma get_cases (url : string) (params : option string)
    (cacheOptions : option CacheOptions) (now : Z) (requestCache : Cache) :
  (exists d, get url params cacheOptions now requestCache = Returned (Ok d) requestCache
             /\ skips cacheOptions = false
             /\ getValidCacheData (cacheKeyOf url params) now requestCache
                = (Some d, requestCache)
             /\ truthy d = true)
  \/ (exists cache1, get url params cacheOptions now requestCache
                     = Awaiting url cache1 (getAfterAwait url params cacheOptions)
                     /\ cache1 = if skips cacheOptions then requestCache
                                 else (getValidCacheData (cacheKeyOf url params) now
                                         requestCache).2).
Proof.
  unfold get. destruct (skips cacheOptions) eqn:Hs.
  - right. eauto.
  - unfold getValidCacheData.
    destruct (requestCache !! cacheKeyOf url params) as [e|] eqn:He; [|right; eauto].
    destruct (now <? expiresAt e); [|right; eauto].
    destruct (truthy (data e)) eqn:Ht; [left|right]; eauto.
Qed.

(** C2. When [get] went to the network and the request fails, the [catch]
    block looks the key up in the cache as it is at that moment: an entry,
    fresh or stale, has its data returned; only without one is the typed
    error thrown. The cache is left as it was. *)
Theorem get_failure_falls_back_to_cached_entry (url : string) (params : option string)
    (cacheOptions : option CacheOptions) (now : Z) (requestCache : Cache)
    (u : string) (cache1 : Cache)
    (resume : Z -> Result JValue -> Cache -> Result JValue * Cache)
    (now' : Z) (error : Error) (cacheAtFailure : Cache) :
  get url params cacheOptions now requestCache = Awaiting u cache1 resume ->
  resume now' (Throw error) cacheAtFailure =
    match cacheAtFailure !! cacheKeyOf url params with
    | Some entry => (Ok (data entry), cacheAtFailure)
    | None => (Throw (rethrown url error), cacheAtFailure)
    end.
Proof.
  intros Hget.
  destruct (get_cases url params cacheOptions now requestCache)
    as [(d & Hd & _)|(c & Hc & _)]; rewrite Hget in *; [discriminate|].
  injection Hc as _ _ ->. reflexivity.
Qed.

(** C2 at a concrete input: a GET that skips the cache lookup fails at a
    time when the entry for its key has long expired; the stale data is
    what the caller gets. *)
Lemma get_failure_falls_back_to_cached_entry_witness :
  getAfterAwait "/kamus" None (Some {| skipCache := true; expirationMs := None |})
    900001 (Throw networkError) twoResources
  = (Ok (JArray [JString "gostan"]), twoResources).
Proof.
  rewrite (get_failure_falls_back_to_cached_entry "/kamus" None
             (Some {| skipCache := true; expirationMs := None |}) 900000 twoResources
             "/kamus" twoResources
             (getAfterAwait "/kamus" None (Some {| skipCache := true; expirationMs := None |}))
             900001 networkError twoResources eq_refl).
  reflexivity.
Defined.

(** A GET that reads the cache has already evicted an expired entry when
    its request fails, so in a run with nothing interleaved the stale data
    is gone by then and the error is thrown. *)
Theorem get_evicts_stale_entry_before_the_fallback (url : string) (params : option string)
    (expiration : option Z) (now now' : Z) (error : Error) (requestCache : Cache)
    (entry : CacheEntry) :
  requestCache !! cacheKeyOf url params = Some entry ->
  expiresAt entry <= now ->
  settle (get url params (Some {| skipCache := false; expirationMs := expiration |})
            now requestCache) now' (Throw error)
  = (Throw (rethrown url error), delete (cacheKeyOf url params) requestCache, [url]).
Proof.
  intros He Hexp. unfold get, getValidCacheData. cbn [skips skipCache].
  rewrite He. destruct (now <? expiresAt entry) eqn:Hlt; [lia|].
  cbn [settle getAfterAwait]. by rewrite lookup_delete_eq.
Qed.

Lemma get_evicts_stale_entry_before_the_fallback_witness :
  settle (get "/kamus" None (Some {| skipCache := false; expirationMs := None |})
            300000 twoResources) 300001 (Throw networkError)
  = (Throw (rethrown "/kamus" networkError), delete "/kamus" twoResources, ["/kamus"]).
Proof.
  apply (get_evicts_stale_entry_before_the_fallback "/kamus" None None 300000 300001
           networkError twoResources entriesEntry eq_refl).
  vm_compute. discriminate.
Defined.

(** A GET that was superseded resolves with [null] and, unless it skips
    the cache, stores that [null] under its key; if the newer request then
    fails, its fallback finds the entry and returns [null] instead of
    throwing. *)
Theorem superseded_get_leaves_null_for_the_fallback (url : string)
    (params : option string) (expiration : option Z) (now' now'' : Z)
    (error : Error) (requestCache : Cache) :
  let cacheOptions := Some {| skipCache := false; expirationMs := expiration |} in
  let afterCancelled :=
    (getAfterAwait url params cacheOptions now' (Ok JNull) requestCache).2 in
  afterCancelled !! cacheKeyOf url params
    = Some {| data := JNull; timestamp := now';
              expiresAt := now' + expirationOrDefault expiration |}
  /\ getAfterAwait url params cacheOptions now'' (Throw error) afterCancelled
     = (Ok JNull, afterCancelled).
Proof.
  intros cacheOptions afterCancelled.
  assert (afterCancelled !! cacheKeyOf url params
          = Some {| data := JNull; timestamp := now';
                    expiresAt := now' + expirationOrDefault expiration |}) as Hnull.
  { subst afterCancelled. cbn [getAfterAwait snd]. subst cacheOptions.
    cbn [skips skipCache expirationOf expirationMs]. unfold setCacheData.
    by rewrite lookup_insert_eq. }
  split; [exact Hnull|]. cbn [getAfterAwait]. by rewrite Hnull.
Qed.

(** C10. A GET with [skipCache: true] goes to the network whatever is
    cached, suspended with the cache untouched; when the response arrives
    its body is returned and nothing is written: the cache is the same
    before and after, also in the run with nothing interleaved. *)
Theorem get_skipCache_leaves_cache_unchanged (url : string) (params : option string)
    (expiration : option Z) (now : Z) (requestCache : Cache) :
  let cacheOptions := Some {| skipCache := true; expirationMs := expiration |} in
  exists resume,
    get url params cacheOptions now requestCache = Awaiting url requestCache resume
    /\ (forall now' body cacheThen,
          resume now' (Ok body) cacheThen = (Ok body, cacheThen))
    /\ (forall now' body,
          settle (get url params cacheOptions now requestCache) now' (Ok body)
          = (Ok body, requestCache, [url])).
Proof.
  intros cacheOptions.
  exists (getAfterAwait url params cacheOptions). repeat split.
Qed.

End GatewayGet.

(** ** KamusRepositoryImpl: mapping the raw payload *)

Section KamusMapping.
Import Js KamusRepositoryImpl MappingSpec Scenario.

Lemma pretty_N_go_length (x : N) (s : string) :
  (String.length s <= String.length (pretty_N_go x s))%nat.
Proof.
  revert s. induction (N.lt_wf_0 x) as [x _ IH]. intros s.
  destruct (decide (x = 0)%N) as [->|Hx].
  - by rewrite pretty_N_go_0.
  - rewrite pretty_N_go_step by lia.
    etrans; [|apply IH; apply N.div_lt; lia]. simpl. lia.
Qed.

Lemma pretty_Z_nonempty (n : Z) : pretty n <> "".
Proof.
  destruct n as [|p|p]; [done| |done].
  unfold pretty, pretty_Z, pretty, pretty_positive, pretty, pretty_N.
  destruct (decide (N.pos p = 0)%N); [done|].
  rewrite pretty_N_go_step by lia. intros H.
  pose proof (pretty_N_go_length (N.pos p `div` 10)
                (String (pretty_N_char (N.pos p `mod` 10)) "")) as Hlen.
  rewrite H in Hlen. simpl in Hlen. lia.
Qed.

(** [String(v)] of a truthy value, when it does not throw, is empty only
    for an array. *)
Lemma stringOf_nonempty (v : JValue) (text : string) :
  truthy v = true -> isArray v = false -> stringOf v = Ok text -> text <> "".
Proof.
  destruct v as [| |[]|n|s|items|fields]; simpl; try done.
  - intros _ _ [= <-]. done.
  - intros _ _ [= <-]. apply pretty_Z_nonempty.
  - intros Hs _ [= <-] ->. done.
  - intros _ _. destruct (hasOwn "toString" fields); [done|]. intros [= <-]. done.
Qed.

Lemma stringOrElse_nonempty (v : JValue) (fallback text : string) :
  fallback <> "" -> isArray v = false -> stringOrElse v fallback = Ok text -> text <> "".
Proof.
  intros Hf Ha. unfold stringOrElse. destruct (truthy v) eqn:Ht.
  - by apply stringOf_nonempty.
  - by intros [= <-].
Qed.

Lemma pretty_prefixed_nonempty (prefix : string) (n : Z) :
  prefix <> "" -> prefix +:+ pretty n <> "".
Proof. destruct prefix; [done|]. done. Qed.

Lemma mapItems_length (now : Z) (random : nat -> string) (negeriId : string)
    (items : list (option KamusApiResponse.t)) :
  List.length (mapItems now random negeriId items) = List.length items.
Proof. unfold mapItems. apply length_imap. Qed.

Lemma mapItems_lookup (now : Z) (random : nat -> string) (negeriId : string)
    (items : list (option KamusApiResponse.t)) (i : nat) :
  mapItems now random negeriId items !! i
  = (fun item => match mapApiResponseToKamus now item with
                 | Ok kamus => kamus
                 | Throw _ => placeholder (random i) negeriId
                 end) <$> items !! i.
Proof. unfold mapItems. by rewrite list_lookup_imap. Qed.

(** A fetch that is made and resolves with an array returns the mapped array. *)
Lemma getAllKamus_of_array (now now' : Z) (random : nat -> string)
    (items : list (option KamusApiResponse.t)) (st : State) :
  isCacheValid now (kamusCache st) = false ->
  (getAllKamus now now' random (Ok (PArray items)) st).1.1
  = Ok (mapItems now' random "0" items).
Proof.
  intros Hv. unfold getAllKamus. rewrite Hv. by destruct (kamusCache st).
Qed.

Lemma getKamusByNegeriId_of_array (negeriId : string) (now now' : Z)
    (random : nat -> string) (items : list (option KamusApiResponse.t)) (st : State) :
  isCacheValid now (kamusByNegeriCache st !! negeriId) = false ->
  (getKamusByNegeriId negeriId now now' random (Ok (PArray items)) st).1.1
  = Ok (mapItems now' random negeriId items).
Proof.
  intros Hv. unfold getKamusByNegeriId.
  destruct (kamusByNegeriCache st !! negeriId) as [c|]; [|done]. by rewrite Hv.
Qed.

Lemma mapItems_mapsEveryItem (now' : Z) (random : nat -> string)
    (placeholderNegeriId : string) (items : list (option KamusApiResponse.t)) :
  mapsEveryItem now' random placeholderNegeriId items
    (mapItems now' random placeholderNegeriId items).
Proof.
  split; [apply mapItems_length|].
  intros i item Hi. rewrite mapItems_lookup, Hi. simpl.
  destruct (mapApiResponseToKamus now' item) as [kamus|error] eqn:Hmap.
  - split; [done|]. unfold mapApiResponseToKamus in Hmap.
    destruct item as [r|]; [|done].
    destruct (stringOrElse (KamusApiResponse.id r) _) as [id|] eqn:Hid; [|done].
    destruct (stringOrElse (KamusApiResponse.negeri_id r) _) as [negeriId|] eqn:Hneg;
      [|done].
    injection Hmap as <-. simpl. split.
    + intros raw [= <-] Harr.
      eapply stringOrElse_nonempty; [|exact Harr|exact Hid].
      by apply pretty_prefixed_nonempty.
    + intros raw [= <-] Harr.
      eapply stringOrElse_nonempty; [|exact Harr|exact Hneg]. done.
  - by eexists.
Qed.

(** C5, as far as it holds. For a raw array of any content fetched by
    [getAllKamus] or by [getKamusByNegeriId], the mapped list has the
    length of the raw one. An item whose mapping throws (a [null] item, and
    also one whose id or region id cannot be converted to a string) is
    replaced, in place, by the placeholder, whose id is ["error-"] followed
    by the random suffix and whose region id is ["0"] in [getAllKamus] and
    the region id that was asked for in [getKamusByNegeriId]. An entry
    mapped from an item has a non-empty id unless the raw id is a JSON
    array, and a non-empty region id unless the raw region id is one
    (absent, null, boolean, number, string and object values all qualify). *)
Theorem fetched_lists_map_every_raw_item (now now' : Z) (random : nat -> string)
    (items : list (option KamusApiResponse.t)) (st : State) :
  (isCacheValid now (kamusCache st) = false ->
   exists kamusList,
     (getAllKamus now now' random (Ok (PArray items)) st).1.1 = Ok kamusList
     /\ mapsEveryItem now' random "0" items kamusList)
  /\ (forall negeriId,
        isCacheValid now (kamusByNegeriCache st !! negeriId) = false ->
        exists kamusList,
          (getKamusByNegeriId negeriId now now' random (Ok (PArray items)) st).1.1
          = Ok kamusList
          /\ mapsEveryItem now' random negeriId items kamusList)
  /\ (forall item,
        isOk (mapApiResponseToKamus now' item)
        = match item with
          | None => false
          | Some raw =>
              isOk (stringOrElse (KamusApiResponse.id raw) ("unknown-" +:+ pretty now'))
              && isOk (stringOrElse (KamusApiResponse.negeri_id raw) "0")
          end).
Proof.
  split; [|split].
  - intros Hv. exists (mapItems now' random "0" items).
    split; [by apply getAllKamus_of_array|apply mapItems_mapsEveryItem].
  - intros negeriId Hv. exists (mapItems now' random negeriId items).
    split; [by apply getKamusByNegeriId_of_array|apply mapItems_mapsEveryItem].
  - intros [raw|]; [|done]. unfold mapApiResponseToKamus.
    destruct (stringOrElse (KamusApiResponse.id raw) _); [|done].
    by destruct (stringOrElse (KamusApiResponse.negeri_id raw) _).
Qed.

(** C5 at a concrete input: three raw items, the middle one [null],
    fetched for region 7. *)
Lemma fetched_lists_map_every_raw_item_witness :
  exists kamusList,
    (getKamusByNegeriId "7" 0 1 suffixes
       (Ok (PArray [Some (rawRecord 1 "gostan" "undur"); None;
                    Some (rawRecord 3 "kona" "belok")])) initial).1.1 = Ok kamusList
    /\ List.length kamusList = 3%nat
    /\ kamusList !! 1%nat = Some (placeholder "k3x9q1" "7").
Proof.
  destruct (proj1 (proj2 (fetched_lists_map_every_raw_item 0 1 suffixes
              [Some (rawRecord 1 "gostan" "undur"); None;
               Some (rawRecord 3 "kona" "belok")] initial)) "7" eq_refl)
    as (kamusList & Hget & Hlen & Hitems).
  exists kamusList. split; [exact Hget|]. split; [exact Hlen|].
  destruct (Hitems 1%nat None eq_refl) as (kamus & Hk & -> & _). exact Hk.
Defined.

(** C5 as stated fails: a record whose [id] is the empty JSON array is
    truthy, so no fallback id is synthesised, and [String([])] is the empty
    string: the mapped entry has an empty id. *)
Lemma array_valued_id_maps_to_empty_id :
  exists kamus,
    (getAllKamus 0 1 suffixes (Ok (PArray [Some rawWithArrayId])) initial).1.1
    = Ok [kamus]
    /\ Kamus.id kamus = "".
Proof. eexists. split; reflexivity. Qed.

(** The region id can be empty as well: the placeholder of
    [getKamusByNegeriId] carries the region id that was asked for, so a
    [null] item fetched for the empty region id gives an entry with an
    empty region id. *)
Example placeholder_carries_the_region_asked_for :
  exists kamus,
    (getKamusByNegeriId "" 0 1 suffixes (Ok (PArray [None])) initial).1.1 = Ok [kamus]
    /\ Kamus.negeriId kamus = "".
Proof. eexists. split; reflexivity. Qed.

(** An identifier that cannot be converted makes the mapping throw: the
    record is replaced by the placeholder. *)
Example unconvertible_id_gives_the_placeholder :
  (getAllKamus 0 1 suffixes
     (Ok (PArray [Some {| KamusApiResponse.id := JObject [("toString", JNumber 1)];
                          KamusApiResponse.dialek := Some "gostan";
                          KamusApiResponse.maksud := Some "undur";
                          KamusApiResponse.contoh_ayat := None;
                          KamusApiResponse.negeri_id := JNumber 7;
                          KamusApiResponse.negeri := None |}])) initial).1.1
  = Ok [placeholder "k3x9q0" "0"].
Proof. reflexivity. Qed.

End KamusMapping.

(** ** KamusRepositoryImpl: the full-list cache *)

Section KamusCache.
Import Js KamusRepositoryImpl Scenario.


Lemma processResponse_fails (now' : Z) (random : nat -> string) (negeriId : string)
    (response : Result Payload) :
  isOk (processResponse now' random negeriId response) = negb (fetchFails response).
Proof. by destruct response as [[]|]. Qed.

(** The served list comes without a fetch exactly when the cache is valid. *)
Lemma getAllKamus_hit_iff_valid (now now' : Z) (random : nat -> string)
    (response : Result Payload) (st : State) :
  (getAllKamus now now' random response st).2 = [] <->
  isCacheValid now (kamusCache st) = true.
Proof.
  unfold getAllKamus.
  destruct (kamusCache st) as [c|] eqn:Hc.
  - destruct (isCacheValid now (Some c)); [done|].
    destruct (processResponse _ _ _ _); simpl; split; done.
  - destruct (processResponse _ _ _ _); simpl; split; done.
Qed.

(** The responses with which the fetch of a list fails. *)
Lemma fetchFails_cases (response : Result Payload) :
  fetchFails response = true <->
  (exists error, response = Throw error) \/ response = Ok PFalsy \/ response = Ok PScalar.
Proof.
  destruct response as [[|items|item|]|error]; simpl; split; try done; eauto.
  - intros [[? ?]|[?|?]]; done.
  - intros [[? ?]|[?|?]]; done.
Qed.

(** C6. When the fetch of [getAllKamus] fails, be it that the request is
    rejected or that it resolves with a body that is no list (a falsy or a
    primitive one, for which the repository throws an error of its own), a
    cached full list, expired or not, is returned and the state is left as
    it was; without one the error is thrown. And an error comes out of
    [getAllKamus] exactly when nothing is cached and the fetch fails. *)
Theorem getAllKamus_falls_back_to_cached_list (now now' : Z) (random : nat -> string)
    (st : State) :
  let fallBack (error : Error) :=
    match kamusCache st with
    | Some c => (Ok (data c), st,
                 if isCacheValid now (kamusCache st) then [] else [KAMUS])
    | None => (Throw error, st, [KAMUS])
    end in
  (forall error, getAllKamus now now' random (Throw error) st = fallBack error)
  /\ getAllKamus now now' random (Ok PFalsy) st
     = fallBack (newError "API response is null or undefined")
  /\ getAllKamus now now' random (Ok PScalar) st
     = fallBack (newError "Invalid API response format: cannot convert to array")
  /\ (forall response,
        fetchFails response = true <->
        (exists error, response = Throw error)
        \/ response = Ok PFalsy \/ response = Ok PScalar)
  /\ forall response,
       isOk (getAllKamus now now' random response st).1.1 = false <->
       kamusCache st = None /\ fetchFails response = true.
Proof.
  intros fallBack. subst fallBack.
  assert (forall response error,
            processResponse now' random "0" response = Throw error ->
            getAllKamus now now' random response st
            = match kamusCache st with
              | Some c => (Ok (data c), st,
                           if isCacheValid now (kamusCache st) then [] else [KAMUS])
              | None => (Throw error, st, [KAMUS])
              end) as Hfail.
  { intros response error Hp. unfold getAllKamus. rewrite Hp.
    destruct (kamusCache st) as [c|]; [|done].
    by destruct (isCacheValid now (Some c)). }
  split; [|split; [|split; [|split]]].
  - intros error. by apply Hfail.
  - by apply Hfail.
  - by apply Hfail.
  - apply fetchFails_cases.
  - intros response. unfold getAllKamus.
    pose proof (processResponse_fails now' random "0" response) as Hp.
    destruct (kamusCache st) as [c|].
    + destruct (isCacheValid now (Some c)); [simpl; split; [done|by intros [? _]]|].
      destruct (processResponse _ _ _ _); simpl; (split; [done|by intros [? _]]).
    + destruct (processResponse _ _ _ _); simpl in *.
      * split; [done|]. intros [_ Hf]. rewrite Hf in Hp. done.
      * split; [|done]. intros _. split; [done|]. by destruct (fetchFails response).
Qed.

End KamusCache.

(** ** KamusRepositoryImpl: search *)

Section KamusSearch.
Import Js KamusRepositoryImpl SearchSpec Scenario.

(** The filter of [searchKamus] is the direct scan of the specification. *)
Lemma simpleFilter_directScan (keyword : string) (allKamus : list Kamus.t) :
  directScan keyword allKamus (simpleFilter keyword allKamus).
Proof.
  intros kamus. unfold simpleFilter, containsIgnoringCase.
  rewrite !list_elem_of_In, filter_In, orb_true_iff, !includes_spec. tauto.
Qed.

(** The list [getAllKamus] returns does not depend on the search index. *)
Lemma getAllKamus_ignores_index (now now' : Z) (random : nat -> string)
    (response : Result Payload) (index : Index) (st : State) :
  (getAllKamus now now' random response (withIndex index st)).1.1
  = (getAllKamus now now' random response st).1.1.
Proof.
  unfold getAllKamus, withIndex. cbn [kamusCache].
  destruct (kamusCache st) as [c|].
  - destruct (isCacheValid now (Some c)); [done|].
    by destruct (processResponse _ _ _ _).
  - by destruct (processResponse _ _ _ _).
Qed.

Lemma searchKamus_unfold (keyword : string) (now now' : Z) (random : nat -> string)
    (response : Result Payload) (st : State) :
  trim keyword <> "" ->
  searchKamus keyword now now' random response st
  = match getAllKamus now now' random response st with
    | (Throw error, st', fetches) => (Throw error, st', fetches)
    | (Ok allKamus, st', fetches) =>
        (Ok (searchLoaded (trim keyword) allKamus
               (searchIndex (ensureIndex allKamus st'))),
         ensureIndex allKamus st', fetches)
    end.
Proof.
  intros Hne. unfold searchKamus.
  destruct (String.eqb (trim keyword) "") eqn:He; [|done].
  by apply String.eqb_eq in He.
Qed.

Lemma nonempty_of_length (s : string) : (1 <= String.length s)%nat -> s <> "".
Proof. intros H ->. simpl in H. lia. Qed.

(** C9. For a keyword whose trimmed length is 1 or 2, [searchKamus] returns
    the entries of the loaded list whose word or meaning contains the
    trimmed keyword as a substring, letter case ignored (and fails only if
    loading the list fails); the result is the same whatever the search
    index holds. *)
Theorem searchKamus_short_keyword_scans_directly (keyword : string) (now now' : Z)
    (random : nat -> string) (response : Result Payload) (st : State) :
  (1 <= String.length (trim keyword) <= 2)%nat ->
  match getAllKamus now now' random response st with
  | (Ok allKamus, st', fetches) =>
      exists result,
        searchKamus keyword now now' random response st
        = (Ok result, ensureIndex allKamus st', fetches)
        /\ result = simpleFilter (trim keyword) allKamus
        /\ directScan (trim keyword) allKamus result
  | (Throw error, st', fetches) =>
      searchKamus keyword now now' random response st = (Throw error, st', fetches)
  end
  /\ forall index,
       (searchKamus keyword now now' random response (withIndex index st)).1.1
       = (searchKamus keyword now now' random response st).1.1.
Proof.
  intros [Hlo Hhi]. pose proof (nonempty_of_length _ Hlo) as Hne.
  assert (Nat.leb (String.length (trim keyword)) 2 = true) as Hshort
    by by apply Nat.leb_le.
  split.
  - rewrite searchKamus_unfold by done.
    destruct (getAllKamus now now' random response st) as [[[allKamus|error] st'] fetches];
      [|done].
    exists (simpleFilter (trim keyword) allKamus). unfold searchLoaded. rewrite Hshort.
    split; [done|]. split; [done|]. apply simpleFilter_directScan.
  - intros index. rewrite !searchKamus_unfold by done.
    pose proof (getAllKamus_ignores_index now now' random response index st) as Hi.
    destruct (getAllKamus now now' random response (withIndex index st))
      as [[[all1|e1] st1] f1];
    destruct (getAllKamus now now' random response st) as [[[all2|e2] st2] f2];
      simpl in Hi; try discriminate; simpl.
    + injection Hi as ->. unfold searchLoaded. by rewrite Hshort.
    + done.
Qed.

(** C9 at a concrete input: the query ["  Ko "] over the two loaded entries
    returns the one whose word contains "ko". *)
Lemma searchKamus_short_keyword_scans_directly_witness :
  searchKamus "  Ko " 2000 2001 suffixes (Throw networkError) loaded
  = (Ok [kona], loaded, []).
Proof.
  pose proof (searchKamus_short_keyword_scans_directly "  Ko " 2000 2001 suffixes
                (Throw networkError) loaded
                (conj (le_S _ _ (le_n 1)) (le_n 2))) as [H _].
  cbv beta iota in H.
  change (getAllKamus 2000 2001 suffixes (Throw networkError) loaded)
    with (Ok [gostan; kona], loaded, @nil string) in H.
  cbv beta iota in H. destruct H as (result & Hs & -> & _).
  rewrite Hs. vm_compute. reflexivity.
Defined.

(** *** Long keywords *)

Lemma inEveryIdSet_cons (index : Index) (token : string) (tokens : list string)
    (id : string) :
  inEveryIdSet index (token :: tokens) id <->
  (exists ids, index !! token = Some ids /\ id ∈ ids) /\ inEveryIdSet index tokens id.
Proof.
  unfold inEveryIdSet. split.
  - intros H. split; [apply H; left|]. intros t Ht. apply H. by right.
  - intros [H1 H2] t Ht. apply elem_of_cons in Ht as [->|Ht]; auto.
Qed.

(** Folding the tokens from a set of candidates: when every token has an
    id-set, the candidates that survive are those in all of the sets. *)
Lemma matchToken_fold_from (index : Index) (tokens : list string) (ids0 : gset string) :
  (forall token, token ∈ tokens -> is_Some (index !! token)) ->
  exists ids,
    foldl (matchToken index) (Some ids0) tokens = Some ids
    /\ forall id, id ∈ ids <-> id ∈ ids0 /\ inEveryIdSet index tokens id.
Proof.
  revert ids0. induction tokens as [|token tokens IH]; intros ids0 Hall.
  - exists ids0. split; [done|]. intros id. split; [|tauto].
    intros Hid. split; [done|]. intros t Ht. by apply elem_of_nil in Ht.
  - destruct (Hall token) as [tokenMatches Ht]; [left|].
    destruct (IH (filter (fun id => id ∈ tokenMatches) ids0)) as (ids & Hfold & Hids).
    { intros t Hin. apply Hall. by right. }
    exists ids. split.
    + cbn [foldl]. unfold matchToken at 2. by rewrite Ht.
    + intros id. rewrite Hids, elem_of_filter, inEveryIdSet_cons. split.
      * intros [[Hm H0] Hrest]. eauto.
      * intros [H0 [(s' & Hs' & Hin) Hrest]]. rewrite Ht in Hs'. by injection Hs' as <-.
Qed.

Lemma matchToken_fold_indexed (index : Index) (tokens : list string) :
  tokens <> [] ->
  (forall token, token ∈ tokens -> is_Some (index !! token)) ->
  exists ids,
    foldl (matchToken index) None tokens = Some ids
    /\ forall id, id ∈ ids <-> inEveryIdSet index tokens id.
Proof.
  destruct tokens as [|token tokens]; [done|]. intros _ Hall.
  destruct (Hall token) as [tokenMatches Ht]; [left|].
  destruct (matchToken_fold_from index tokens tokenMatches) as (ids & Hfold & Hids).
  { intros t Hin. apply Hall. by right. }
  exists ids. split.
  - cbn [foldl]. unfold matchToken at 2. by rewrite Ht.
  - intros id. rewrite Hids, inEveryIdSet_cons. split.
    + intros [Hm Hrest]. eauto.
    + intros [(s' & Hs' & Hin) Hrest]. rewrite Ht in Hs'. by injection Hs' as <-.
Qed.

(** Tokens the index has never seen leave the candidates as they are. *)
Lemma matchToken_fold_unseen (index : Index) (tokens : list string)
    (matchingIds : option (gset string)) :
  (forall token, token ∈ tokens -> index !! token = None) ->
  foldl (matchToken index) matchingIds tokens = matchingIds.
Proof.
  induction tokens as [|token tokens IH]; intros Hnone; [done|].
  cbn [foldl]. unfold matchToken at 2. rewrite (Hnone token) by left.
  apply IH. intros t Ht. apply Hnone. by right.
Qed.

Lemma searchLoaded_long_keyword (trimmedKeyword : string) (allKamus : list Kamus.t)
    (index : Index) :
  (2 < String.length trimmedKeyword)%nat ->
  tokenizeText trimmedKeyword <> [] ->
  ((forall token, token ∈ tokenizeText trimmedKeyword -> is_Some (index !! token)) ->
   (exists id, inEveryIdSet index (tokenizeText trimmedKeyword) id) ->
   andSemantics index (tokenizeText trimmedKeyword) allKamus
     (searchLoaded trimmedKeyword allKamus index))
  /\ ((forall token, token ∈ tokenizeText trimmedKeyword -> is_Some (index !! token)) ->
      ~ (exists id, inEveryIdSet index (tokenizeText trimmedKeyword) id) ->
      searchLoaded trimmedKeyword allKamus index
      = simpleFilter trimmedKeyword allKamus)
  /\ ((forall token, token ∈ tokenizeText trimmedKeyword -> index !! token = None) ->
      searchLoaded trimmedKeyword allKamus index
      = simpleFilter trimmedKeyword allKamus).
Proof.
  intros Hlen Htokens. unfold searchLoaded.
  assert (Nat.leb (String.length trimmedKeyword) 2 = false) as ->
    by (apply Nat.leb_gt; lia).
  destruct (tokenizeText trimmedKeyword) as [|token tokens] eqn:Htok; [done|].
  split; [|split].
  - intros Hall [id0 Hid0].
    destruct (matchToken_fold_indexed index (token :: tokens)) as (ids & -> & Hids);
      [done|done|].
    assert (size ids <> 0%nat) as Hsize.
    { intros Hz. apply size_empty_iff in Hz. apply Hids in Hid0. set_solver. }
    apply Nat.eqb_neq in Hsize. rewrite Hsize.
    intros kamus. rewrite !list_elem_of_In, filter_In, bool_decide_eq_true, Hids.
    done.
  - intros Hall Hnone.
    destruct (matchToken_fold_indexed index (token :: tokens)) as (ids & -> & Hids);
      [done|done|].
    assert (size ids = 0%nat) as ->; [|done].
    apply size_empty_iff. intros id. split; [|set_solver].
    intros Hid. exfalso. apply Hnone. exists id. by apply Hids.
  - intros Hnone. by rewrite matchToken_fold_unseen.
Qed.

(** C3, as far as it holds. For a keyword whose trimmed length exceeds 2
    and which has at least one token, over the list [getAllKamus] loaded:
    when every token is a key of the index and some id lies in the id-sets
    of all tokens, the result is exactly the loaded entries whose id lies
    in the intersection of those id-sets (AND semantics); when every token
    is a key but the intersection is empty, or when no token is a key, the
    result is instead the substring scan of the whole keyword. *)
Theorem searchKamus_long_keyword_intersects_or_scans (keyword : string) (now now' : Z)
    (random : nat -> string) (response : Result Payload) (st : State)
    (allKamus : list Kamus.t) (st' : State) (fetches : list string) :
  (2 < String.length (trim keyword))%nat ->
  tokenizeText (trim keyword) <> [] ->
  getAllKamus now now' random response st = (Ok allKamus, st', fetches) ->
  let tokens := tokenizeText (trim keyword) in
  let index := searchIndex (ensureIndex allKamus st') in
  exists result,
    searchKamus keyword now now' random response st
    = (Ok result, ensureIndex allKamus st', fetches)
    /\ ((forall token, token ∈ tokens -> is_Some (index !! token)) ->
        (exists id, inEveryIdSet index tokens id) ->
        andSemantics index tokens allKamus result)
    /\ ((forall token, token ∈ tokens -> is_Some (index !! token)) ->
        ~ (exists id, inEveryIdSet index tokens id) ->
        directScan (trim keyword) allKamus result)
    /\ ((forall token, token ∈ tokens -> index !! token = None) ->
        directScan (trim keyword) allKamus result).
Proof.
  intros Hlen Htokens Hget tokens index.
  assert (trim keyword <> "") as Hne by (apply nonempty_of_length; lia).
  rewrite searchKamus_unfold, Hget by done.
  destruct (searchLoaded_long_keyword (trim keyword) allKamus index Hlen Htokens)
    as (Hand & Hempty & Hunseen).
  eexists. split; [reflexivity|]. fold index. split; [|split].
  - intros Hall Hex. by apply Hand.
  - intros Hall Hnone. rewrite Hempty by done. apply simpleFilter_directScan.
  - intros Hnone. rewrite Hunseen by done. apply simpleFilter_directScan.
Qed.

(** C3 at a concrete input: both tokens of ["undur belakang"] are keys of
    the index over the two loaded entries, and entry 1 is in both id-sets. *)
Lemma searchKamus_long_keyword_intersects_or_scans_witness :
  exists result,
    searchKamus "undur belakang" 2000 2001 suffixes (Throw networkError) loaded
    = (Ok result, loaded, [])
    /\ andSemantics (searchIndex loaded) ["undur"; "belakang"] [gostan; kona] result.
Proof.
  destruct (searchKamus_long_keyword_intersects_or_scans "undur belakang" 2000 2001
              suffixes (Throw networkError) loaded [gostan; kona] loaded [])
    as (result & Hsearch & Hand & _).
  - vm_compute. lia.
  - vm_compute. discriminate.
  - reflexivity.
  - exists result. split; [exact Hsearch|]. apply Hand.
    + intros token Ht. apply list_elem_of_In in Ht. vm_compute in Ht.
      destruct Ht as [<-|[<-|[]]]; vm_compute; eauto.
    + exists "1". intros token Ht. apply list_elem_of_In in Ht. vm_compute in Ht.
      destruct Ht as [<-|[<-|[]]];
        (eexists; split; [vm_compute; reflexivity | vm_compute; reflexivity]).
Defined.

(** C3 as stated fails: the single token of ["ost"] is not a key of the
    index, so no entry matches it there; yet the search returns the entry
    whose word contains "ost", found by the substring scan it falls back
    to. The result is not the intersection of the id-sets of the tokens. *)
Lemma substring_fallback_is_not_and_semantics :
  searchKamus "ost" 2000 2001 suffixes (Throw networkError) loaded
  = (Ok [gostan], loaded, [])
  /\ tokenizeText (trim "ost") = ["ost"]
  /\ searchIndex loaded !! "ost" = None
  /\ ~ andSemantics (searchIndex loaded) (tokenizeText (trim "ost"))
        [gostan; kona] [gostan].
Proof.
  split; [vm_compute; reflexivity|]. split; [vm_compute; reflexivity|].
  assert (searchIndex loaded !! "ost" = None) as Hnone by (vm_compute; reflexivity).
  split; [exact Hnone|]. intros Hand.
  destruct (proj1 (Hand gostan)) as [_ Hevery]; [left|].
  destruct (Hevery "ost") as (ids & Hids & _); [vm_compute; left|].
  rewrite Hnone in Hids. discriminate.
Qed.

(** A token the index has never seen is passed over when another token is
    known: ["undur zzz"] returns the entry matching "undur" alone. *)
Example unseen_token_is_passed_over :
  searchKamus "undur zzz" 2000 2001 suffixes (Throw networkError) loaded
  = (Ok [gostan], loaded, [])
  /\ tokenizeText (trim "undur zzz") = ["undur"; "zzz"]
  /\ searchIndex loaded !! "zzz" = None.
Proof. repeat split; vm_compute; reflexivity. Qed.

End KamusSearch.

(** ** NegeriRepositoryImpl *)

Section NegeriLookup.
Import Js NegeriRepositoryImpl LookupSpec Scenario.

Lemma negeri_isCacheValid_iff {T} (now : Z) (c : CacheEntry T) :
  isCacheValid now (Some c) = true <-> now - timestamp c < cacheExpirationTime.
Proof. unfold isCacheValid. apply Z.ltb_lt. Qed.

(** [getAllNegeri] throws exactly when nothing is cached and the fetch
    fails; the state is then untouched. *)
Lemma getAllNegeri_throws_iff (now now' : Z)
    (response : Result (option (list Negeri.t)))
    (st st' : State) (error : Error) (fetches : list string) :
  getAllNegeri now now' response st = (Throw error, st', fetches) <->
  negeriCache st = None /\ response = Throw error /\ st' = st /\ fetches = [NEGERI].
Proof.
  unfold getAllNegeri. destruct (negeriCache st) as [c|].
  - destruct (isCacheValid now (Some c)); [split; [done|by intros [? _]]|].
    destruct response as [[l|]|e]; (split; [done|by intros [? _]]).
  - destruct response as [[l|]|e].
    + split; [done|by intros (_ & ? & _)].
    + split; [done|by intros (_ & ? & _)].
    + split.
      * intros [= -> -> <-]. done.
      * intros (_ & [= ->] & -> & ->). done.
Qed.

(** The full list is served without a fetch exactly when it is valid. *)
Lemma getAllNegeri_hit_iff_valid (now now' : Z)
    (response : Result (option (list Negeri.t))) (st : State) :
  (getAllNegeri now now' response st).2 = [] <->
  isCacheValid now (negeriCache st) = true.
Proof.
  unfold getAllNegeri. destruct (negeriCache st) as [c|].
  - destruct (isCacheValid now (Some c)); [done|].
    destruct response as [[l|]|e]; simpl; split; done.
  - destruct response as [[l|]|e]; simpl; split; done.
Qed.

(** A failed refresh of the full list serves the cached one, expired or
    not, and leaves the state as it was. *)
Lemma getAllNegeri_failed_refresh (now now' : Z) (error : Error) (st : State)
    (c : CacheEntry (option (list Negeri.t))) :
  negeriCache st = Some c ->
  (getAllNegeri now now' (Throw error) st).1 = (Ok (data c), st).
Proof.
  intros Hc. unfold getAllNegeri. rewrite Hc.
  by destruct (isCacheValid now (Some c)).
Qed.

Lemma setById_backfilled (id : string) (negeri : option Negeri.t) (now : Z)
    (st : State) :
  backfilled id negeri now st (setById id negeri now st).
Proof.
  split; [|split].
  - simpl. by rewrite lookup_insert_eq.
  - done.
  - intros other Hne. simpl. by rewrite lookup_insert_ne.
Qed.

(** With an expired or absent per-id entry, the call is what the later
    steps make of it. *)
Lemma getNegeriById_without_valid_entry (id : string) (now0 now1 now2 : Z)
    (pointResponse : Result (option Negeri.t))
    (listResponse : Result (option (list Negeri.t))) (st : State) :
  isCacheValid now0 (negeriByIdCache st !! id) = false ->
  getNegeriById id now0 now1 now2 pointResponse listResponse st
  = match fromMainCache id now0 st with
    | Ok (Some cachedNegeri) =>
        (Ok (Some cachedNegeri), setById id (Some cachedNegeri) now0 st, [])
    | Ok None => fetchDirect id now1 now2 pointResponse listResponse st
    | Throw error => staleOrThrow id error st []
    end.
Proof.
  intros Hexpired. unfold getNegeriById.
  destruct (negeriByIdCache st !! id) as [e|]; [|done]. by rewrite Hexpired.
Qed.

(** The main cache has nothing to offer: it is absent or expired, or its
    list has no region with the id. *)
Lemma fromMainCache_nothing (id : string) (now0 : Z) (st : State) :
  (isCacheValid now0 (negeriCache st) = false
   \/ exists c l, negeriCache st = Some c /\ data c = Some l /\ findById id l = None) ->
  fromMainCache id now0 st = Ok None.
Proof.
  unfold fromMainCache. intros [Hv|(c & l & Hc & Hl & Hf)].
  - destruct (negeriCache st) as [c|]; [|done]. by rewrite Hv.
  - rewrite Hc. destruct (isCacheValid now0 (Some c)); [|done].
    rewrite Hl. simpl. by rewrite Hf.
Qed.

(** C7. The claim fails on a repository whose full-list fetch was
    superseded by a newer request: [getAllNegeri] got [null] from the
    gateway, cached it as its list and returned it. For the next fifteen
    minutes the full-list cache is valid, its scan in [getNegeriById]
    throws, and the call ends with that error, with no fetch, although the
    by-id endpoint and the list endpoint would both have answered. *)
Theorem cached_null_list_stops_the_lookup :
  getAllNegeri 0 1 (Ok None) initial = (Ok None, listSuperseded, ["/negeri"])
  /\ isCacheValid 60000 (negeriCache listSuperseded) = true
  /\ getNegeriById "7" 60000 60001 60002 (Ok (Some perak)) (Ok (Some [perak]))
       listSuperseded
     = (Throw nullTypeError, listSuperseded, []).
Proof. repeat split. Qed.

(** The sources [getNegeriById] consults, in order. (1) A valid per-id
    entry is returned with no fetch and no change of state. Otherwise
    (2) a match in a valid full-list cache is returned with no fetch, and
    the per-id cache then holds it; when the valid full-list cache holds
    [null], its scan throws and the call ends with the stale per-id entry
    or the error, with no fetch. Otherwise (3) the by-id endpoint is
    fetched; what it resolves with is returned and the per-id cache then
    holds it. (4) When that fetch fails, [getAllNegeri] runs and its list
    is scanned: a match is returned and the per-id cache then holds it, no
    match gives [null]. (5) When [getAllNegeri] throws, or returns [null]
    so that the scan throws, a per-id entry still in the cache, stale as it
    is, is returned, and only without one is the error thrown. *)
Theorem getNegeriById_lookup_order (id : string) (now0 now1 now2 : Z)
    (pointResponse : Result (option Negeri.t))
    (listResponse : Result (option (list Negeri.t))) (st : State) :
  let result := getNegeriById id now0 now1 now2 pointResponse listResponse st in
  (forall entry,
     negeriByIdCache st !! id = Some entry ->
     isCacheValid now0 (Some entry) = true ->
     result = (Ok (data entry), st, []))
  /\ (isCacheValid now0 (negeriByIdCache st !! id) = false ->
      (forall c l found,
         negeriCache st = Some c ->
         isCacheValid now0 (Some c) = true ->
         data c = Some l ->
         findById id l = Some found ->
         exists st', result = (Ok (Some found), st', [])
                     /\ backfilled id (Some found) now0 st st')
      /\ (forall c,
            negeriCache st = Some c ->
            isCacheValid now0 (Some c) = true ->
            data c = None ->
            result = (match negeriByIdCache st !! id with
                      | Some stale => Ok (data stale)
                      | None => Throw nullTypeError
                      end, st, []))
      /\ ((isCacheValid now0 (negeriCache st) = false
           \/ exists c l, negeriCache st = Some c /\ data c = Some l
                          /\ findById id l = None) ->
          (forall negeri,
             pointResponse = Ok negeri ->
             exists st', result = (Ok negeri, st', [NEGERI_BY_ID id])
                         /\ backfilled id negeri now1 st st')
          /\ (forall directError l st1 fetches,
                pointResponse = Throw directError ->
                getAllNegeri now1 now2 listResponse st = (Ok (Some l), st1, fetches) ->
                match findById id l with
                | Some found =>
                    exists st', result = (Ok (Some found), st', NEGERI_BY_ID id :: fetches)
                                /\ backfilled id (Some found) now2 st1 st'
                | None => result = (Ok None, st1, NEGERI_BY_ID id :: fetches)
                end)
          /\ (forall directError error st1 fetches,
                pointResponse = Throw directError ->
                getAllNegeri now1 now2 listResponse st = (Throw error, st1, fetches)
                \/ (getAllNegeri now1 now2 listResponse st = (Ok None, st1, fetches)
                    /\ error = nullTypeError) ->
                result = (match negeriByIdCache st1 !! id with
                          | Some stale => Ok (data stale)
                          | None => Throw error
                          end, st1, NEGERI_BY_ID id :: fetches)))).
Proof.
  intros result. subst result. split.
  - intros entry He Hv. unfold getNegeriById. by rewrite He, Hv.
  - intros Hexpired. rewrite (getNegeriById_without_valid_entry _ _ _ _ _ _ _ Hexpired).
    split; [|split].
    + intros c l found Hc Hv Hl Hfound. unfold fromMainCache.
      rewrite Hc, Hv, Hl. simpl. rewrite Hfound.
      eexists. split; [reflexivity|apply setById_backfilled].
    + intros c Hc Hv Hl. unfold fromMainCache. rewrite Hc, Hv, Hl. simpl.
      unfold staleOrThrow. by destruct (negeriByIdCache st !! id).
    + intros Hnothing. rewrite (fromMainCache_nothing _ _ _ Hnothing).
      unfold fetchDirect. split; [|split].
      * intros negeri ->. eexists. split; [reflexivity|apply setById_backfilled].
      * intros directError l st1 fetches -> Hall.
        unfold fallBackToFullList. rewrite Hall. simpl.
        destruct (findById id l) as [found|]; [|done].
        eexists. split; [reflexivity|apply setById_backfilled].
      * intros directError error st1 fetches -> [Hall|[Hall ->]];
          unfold fallBackToFullList; rewrite Hall; simpl; unfold staleOrThrow;
          by destruct (negeriByIdCache st1 !! id).
Qed.

(** At a concrete input: the per-id entry for region 7 has expired,
    nothing else is cached and both fetches fail; the stale entry is served. *)
Lemma getNegeriById_lookup_order_witness :
  getNegeriById "7" 900000 900001 900002 (Throw networkError) (Throw networkError)
    onlyPerakById
  = (Ok (Some perak), onlyPerakById, ["/negeri/7"; "/negeri"]).
Proof.
  destruct (getNegeriById_lookup_order "7" 900000 900001 900002 (Throw networkError)
              (Throw networkError) onlyPerakById) as [_ Hrest].
  destruct (Hrest eq_refl) as (_ & _ & Hfetch).
  destruct (Hfetch (or_introl eq_refl)) as (_ & _ & Hfail).
  exact (Hfail networkError networkError onlyPerakById [NEGERI] eq_refl
           (or_introl eq_refl)).
Defined.

End NegeriLookup.

(** ** Cache validity and eviction, across the three components *)

Section CacheValidity.
Import Js Scenario.





End CacheValidity.

(** ** The interceptors and the requests in flight *)

Section InFlight.
Import Interceptors.

Lemma elem_of_filter_list {A} (f : A -> bool) (l : list A) (x : A) :
  x ∈ List.filter f l <-> x ∈ l /\ f x = true.
Proof. by rewrite !list_elem_of_In, filter_In. Qed.

Lemma NoDup_map_filter {A B} (g : A -> B) (f : A -> bool) (l : list A) :
  NoDup (List.map g l) -> NoDup (List.map g (List.filter f l)).
Proof.
  induction l as [|x l IH]; simpl; [done|].
  intros Hnd. apply NoDup_cons in Hnd as [Hx Hnd].
  destruct (f x); simpl; [|by apply IH].
  apply NoDup_cons. split; [|by apply IH].
  intros Hin. apply Hx.
  apply list_elem_of_In, in_map_iff in Hin as (y & Hy & Hin).
  apply filter_In in Hin as [Hin _].
  apply list_elem_of_In, in_map_iff. eauto.
Qed.

Lemma tracked_initial : tracked initial.
Proof.
  split; [apply NoDup_nil_2|].
  split; intros r Hr; by apply elem_of_nil in Hr.
Qed.

(** After [cancelActiveRequest(u)] nothing in flight goes to [u]. *)
Lemma tracked_cancelActiveRequest (u : string) (st : State) :
  tracked st -> hasUrl u = true ->
  tracked (cancelActiveRequest u st)
  /\ issued (cancelActiveRequest u st) = issued st
  /\ forall r, r ∈ inFlight (cancelActiveRequest u st) -> url r <> u.
Proof.
  intros (Hnd & Hlt & Hact) Hu. unfold cancelActiveRequest.
  destruct (activeRequests st !! u) as [source|] eqn:Hsrc; unfold tracked; simpl.
  - assert (forall r, r ∈ List.filter (fun r => negb (Nat.eqb (rid r) source))
                          (inFlight st) -> r ∈ inFlight st /\ url r <> u) as Hkept.
    { intros r Hr. apply elem_of_filter_list in Hr as [Hr Hne]. split; [done|].
      intros Heq. pose proof (Hact r Hr) as Ha. rewrite Heq, Hu, Hsrc in Ha.
      specialize (Ha eq_refl). injection Ha as ->.
      by rewrite Nat.eqb_refl in Hne. }
    split; [|split; [done|]].
    + split; [by apply NoDup_map_filter|]. split.
      * intros r Hr. apply Hlt. by apply Hkept.
      * intros r Hr Hurl. destruct (Hkept r Hr) as [Hin Hne].
        rewrite lookup_delete_ne by done. by apply Hact.
    + intros r Hr. by apply Hkept.
  - split; [exact (conj Hnd (conj Hlt Hact))|]. split; [done|].
    intros r Hr Heq. pose proof (Hact r Hr) as Ha. rewrite Heq, Hu, Hsrc in Ha.
    by specialize (Ha eq_refl).
Qed.

Lemma tracked_issue_get (u : string) (st : State) :
  tracked st -> tracked (issue GET u st).
Proof.
  intros Ht. unfold issue. cbn [isGet andb].
  destruct (hasUrl u) eqn:Hu.
  - destruct (tracked_cancelActiveRequest u st Ht Hu) as ((Hnd & Hlt & Hact) & Hiss & Hne).
    set (st0 := cancelActiveRequest u st) in *. unfold tracked. simpl.
    split; [|split].
    + rewrite List.map_app. apply NoDup_app. split; [done|]. split.
      * intros x Hx Hx'. simpl in Hx'. apply list_elem_of_singleton in Hx'. subst x.
        apply list_elem_of_In, in_map_iff in Hx as (r & Hr & Hin).
        apply list_elem_of_In in Hin. destruct (Hlt r Hin). lia.
      * simpl. apply NoDup_singleton.
    + intros r Hr. apply elem_of_app in Hr as [Hr|Hr].
      * destruct (Hlt r Hr). split; [lia|done].
      * apply list_elem_of_singleton in Hr. subst r. simpl. split; [lia|done].
    + intros r Hr Hurl. apply elem_of_app in Hr as [Hr|Hr].
      * rewrite lookup_insert_ne by (intros Heq; by apply (Hne r Hr)).
        by apply Hact.
      * apply list_elem_of_singleton in Hr. subst r. simpl.
        by rewrite lookup_insert_eq.
  - destruct Ht as (Hnd & Hlt & Hact). unfold tracked. simpl. split; [|split].
    + rewrite List.map_app. apply NoDup_app. split; [done|]. split.
      * intros x Hx Hx'. simpl in Hx'. apply list_elem_of_singleton in Hx'. subst x.
        apply list_elem_of_In, in_map_iff in Hx as (r & Hr & Hin).
        apply list_elem_of_In in Hin. destruct (Hlt r Hin). lia.
      * simpl. apply NoDup_singleton.
    + intros r Hr. apply elem_of_app in Hr as [Hr|Hr].
      * destruct (Hlt r Hr). split; [lia|done].
      * apply list_elem_of_singleton in Hr. subst r. simpl. split; [lia|done].
    + intros r Hr Hurl. apply elem_of_app in Hr as [Hr|Hr]; [by apply Hact|].
      apply list_elem_of_singleton in Hr. subst r. simpl in Hurl. congruence.
Qed.

Lemma tracked_deliver (how : Outcome) (id : nat) (st : State) :
  tracked st -> tracked (deliver how id st).
Proof.
  intros (Hnd & Hlt & Hact). unfold deliver.
  destruct (List.find _ (inFlight st)) as [r|] eqn:Hfind; [|done].
  apply find_some in Hfind as [Hr Hid]. apply list_elem_of_In in Hr.
  apply Nat.eqb_eq in Hid. unfold settleRequest, tracked. simpl.
  split; [by apply NoDup_map_filter|]. split.
  - intros r' Hr'. apply elem_of_filter_list in Hr' as [Hr' _]. by apply Hlt.
  - intros r' Hr' Hurl. apply elem_of_filter_list in Hr' as [Hr' Hne].
    destruct (hasUrl (url r)) eqn:Hu; [|by apply Hact].
    rewrite lookup_delete_ne; [by apply Hact|].
    intros Heq. pose proof (Hact r Hr Hu) as Ha. pose proof (Hact r' Hr' Hurl) as Ha'.
    rewrite Heq, Ha' in Ha. injection Ha as Ha. rewrite Ha, Nat.eqb_refl in Hne. done.
Qed.

Lemma tracked_step (st : State) (ev : Event) :
  tracked st -> isGetEvent ev = true -> tracked (step st ev).
Proof.
  intros Ht Hev. destruct ev as [m u|id|id]; simpl.
  - destruct m; try discriminate. by apply tracked_issue_get.
  - by apply tracked_deliver.
  - by apply tracked_deliver.
Qed.

Lemma tracked_foldl (events : list Event) (st : State) :
  tracked st -> Forall (fun ev => isGetEvent ev = true) events ->
  tracked (foldl step st events).
Proof.
  revert st. induction events as [|ev events IH]; intros st Ht Hall; [done|].
  apply Forall_cons in Hall as [Hev Hall]. simpl. apply IH; [|done].
  by apply tracked_step.
Qed.

(** While only GETs go through the shared axios instance, at most one GET
    per non-empty url is in flight at any time. *)
Theorem at_most_one_get_in_flight_without_mutations (events : list Event) (u : string) :
  Forall (fun ev => isGetEvent ev = true) events ->
  u <> "" ->
  (List.length (getsInFlight u (run events)) <= 1)%nat.
Proof.
  intros Hall Hu. unfold run.
  destruct (tracked_foldl events initial tracked_initial Hall) as (Hnd & _ & Hact).
  set (st := foldl step initial events) in *. unfold getsInFlight.
  assert (hasUrl u = true) as Hhas.
  { unfold hasUrl. destruct (String.eqb u "") eqn:He; [|done].
    by apply String.eqb_eq in He. }
  pose proof (NoDup_map_filter rid
                (fun r => isGet (method r) && String.eqb (url r) u) _ Hnd) as Hnd'.
  assert (forall r, r ∈ List.filter (fun r => isGet (method r) && String.eqb (url r) u)
                       (inFlight st) -> activeRequests st !! u = Some (rid r)) as Hsame.
  { intros r Hr. apply elem_of_filter_list in Hr as [Hr Hf].
    apply andb_true_iff in Hf as [_ Hf]. apply String.eqb_eq in Hf. subst u.
    by apply Hact. }
  destruct (List.filter _ (inFlight st)) as [|r1 [|r2 rest]]; simpl; [lia|lia|].
  exfalso. pose proof (Hsame r1) as H1. pose proof (Hsame r2) as H2.
  rewrite H1 in H2 by left. specialize (H2 ltac:(right; left)). injection H2 as H2.
  simpl in Hnd'. apply NoDup_cons in Hnd' as [Hnot _]. apply Hnot. rewrite H2. left.
Qed.

Lemma at_most_one_get_in_flight_without_mutations_witness :
  (List.length (getsInFlight "/kamus"
                  (run [Issue GET "/kamus"; Issue GET "/negeri"; Issue GET "/kamus";
                        Respond 1; Issue GET "/kamus"])) <= 1)%nat.
Proof.
  apply at_most_one_get_in_flight_without_mutations.
  - repeat constructor.
  - discriminate.
Defined.

(** C8, at the failing input. A GET to ["/kamus"] is in flight when a POST
    to the same url is issued and answered; the response interceptor, which
    does not look at the method, deletes the cancel source stored for the
    url. The next GET to ["/kamus"] then finds nothing to cancel: requests 0
    and 2, both GETs to ["/kamus"], are in flight together, and the older
    one goes on to complete normally after the newer one was issued. *)
Theorem mutation_response_forgets_the_get_in_flight :
  getsInFlight "/kamus"
    (run [Issue GET "/kamus"; Issue POST "/kamus"; Respond 1; Issue GET "/kamus"])
  = [mkRequest 0 GET "/kamus"; mkRequest 2 GET "/kamus"]
  /\ settled
       (run [Issue GET "/kamus"; Issue POST "/kamus"; Respond 1; Issue GET "/kamus";
             Respond 0])
     = [(mkRequest 1 POST "/kamus", Completed); (mkRequest 0 GET "/kamus", Completed)].
Proof. split; vm_compute; reflexivity. Qed.

(** Without the mutation in between, the newer GET cancels the older one. *)
Example newer_get_cancels_the_older :
  getsInFlight "/kamus" (run [Issue GET "/kamus"; Issue GET "/kamus"])
  = [mkRequest 1 GET "/kamus"]
  /\ settled (run [Issue GET "/kamus"; Issue GET "/kamus"])
     = [(mkRequest 0 GET "/kamus", Cancelled)].
Proof. split; vm_compute; reflexivity. Qed.

End InFlight.

(** ** KamusRepositoryImpl: the search index *)

Section KamusIndex.
Import Js KamusRepositoryImpl SearchSpec Scenario.

Lemma addToIndex_lookup (kamusId : string) (index : Index) (token t : string) :
  addToIndex kamusId index token !! t
  = if decide (t = token)
    then Some (default ∅ (index !! token) ∪ {[kamusId]})
    else index !! t.
Proof.
  unfold addToIndex. destruct (index !! token) as [ids|] eqn:Hi.
  - rewrite Hi. destruct (decide (t = token)) as [->|Hne].
    + by rewrite lookup_insert_eq.
    + by rewrite lookup_insert_ne.
  - rewrite lookup_insert_eq. destruct (decide (t = token)) as [->|Hne].
    + by rewrite lookup_insert_eq.
    + by rewrite !lookup_insert_ne.
Qed.

Lemma inIdSet_addToIndex (kamusId : string) (index : Index) (token t id : string) :
  inIdSet (addToIndex kamusId index token) t id <->
  inIdSet index t id \/ (t = token /\ id = kamusId).
Proof.
  unfold inIdSet. rewrite addToIndex_lookup.
  destruct (decide (t = token)) as [->|Hne].
  - split.
    + intros (ids & [= <-] & Hid). apply elem_of_union in Hid as [Hid|Hid].
      * left. destruct (index !! token) as [ids0|]; simpl in Hid; [eauto|set_solver].
      * right. split; [done|]. by apply elem_of_singleton in Hid.
    + intros [(ids & Hids & Hid)|[_ ->]]; eexists; (split; [reflexivity|]).
      * rewrite Hids. simpl. set_solver.
      * set_solver.
  - split; [by left|]. intros [H|[? _]]; done.
Qed.

Lemma inIdSet_fold_addToIndex (kamusId : string) (tokens : list string)
    (index : Index) (t id : string) :
  inIdSet (foldl (addToIndex kamusId) index tokens) t id <->
  inIdSet index t id \/ (t ∈ tokens /\ id = kamusId).
Proof.
  revert index. induction tokens as [|token tokens IH]; intros index; simpl.
  - split; [by left|]. intros [H|[H _]]; [done|]. by apply elem_of_nil in H.
  - rewrite IH, inIdSet_addToIndex, elem_of_cons. tauto.
Qed.

Lemma inIdSet_fold_entries (kamusList : list Kamus.t) (index : Index) (t id : string) :
  inIdSet
    (foldl (fun index kamus =>
              foldl (addToIndex (Kamus.id kamus)) index
                (remove_dups (tokenizeText (Kamus.word kamus)
                              ++ tokenizeText (Kamus.meaning kamus))))
           index kamusList) t id <->
  inIdSet index t id
  \/ exists kamus, kamus ∈ kamusList /\ Kamus.id kamus = id /\ t ∈ tokensOf kamus.
Proof.
  revert index. induction kamusList as [|kamus kamusList IH]; intros index; simpl.
  - split; [by left|]. intros [H|(k & H & _)]; [done|]. by apply elem_of_nil in H.
  - rewrite IH, inIdSet_fold_addToIndex, elem_of_remove_dups. unfold tokensOf. split.
    + intros [[H|[Ht ->]]|(k & Hk & Hid & Ht)].
      * by left.
      * right. exists kamus. split; [left|done].
      * right. exists k. split; [by right|done].
    + intros [H|(k & Hk & Hid & Ht)]; [by left; left|].
      apply elem_of_cons in Hk as [->|Hk].
      * left. right. done.
      * right. eauto.
Qed.

(** The index maps a token to the ids of exactly the entries that have the
    token in their word or meaning. *)
Theorem buildSearchIndex_holds_the_ids_of_matching_entries
    (kamusList : list Kamus.t) (token id : string) :
  inIdSet (buildSearchIndex kamusList) token id <->
  exists kamus, kamus ∈ kamusList /\ Kamus.id kamus = id /\ token ∈ tokensOf kamus.
Proof.
  unfold buildSearchIndex. rewrite inIdSet_fold_entries. split; [|by right].
  intros [(ids & Hids & _)|H]; [|done]. by rewrite lookup_empty in Hids.
Qed.

(** A fetch that succeeds replaces the cache and rebuilds the index from
    the list it returns; a second call within the expiration window
    fetches nothing and returns the same list, with the same index. *)
Theorem getAllKamus_twice_fetches_once (now0 now1 now2 now3 : Z)
    (random random' : nat -> string) (items : list (option KamusApiResponse.t))
    (response' : Result Payload) (st : State) :
  isCacheValid now0 (kamusCache st) = false ->
  now2 - now1 < cacheExpirationTime ->
  exists kamusList st1,
    getAllKamus now0 now1 random (Ok (PArray items)) st = (Ok kamusList, st1, [KAMUS])
    /\ searchIndex st1 = buildSearchIndex kamusList
    /\ getAllKamus now2 now3 random' response' st1 = (Ok kamusList, st1, []).
Proof.
  intros Hinvalid Hfresh.
  exists (mapItems now1 random "0" items).
  eexists. split; [|split].
  - unfold getAllKamus. rewrite Hinvalid. destruct (kamusCache st); reflexivity.
  - reflexivity.
  - unfold getAllKamus. cbn [kamusCache isCacheValid timestamp data].
    destruct (now2 - now1 <? cacheExpirationTime) eqn:Hlt; [done|lia].
Qed.

Lemma getAllKamus_twice_fetches_once_witness :
  exists kamusList st1,
    getAllKamus 0 1 suffixes (Ok (PArray [Some (rawRecord 1 "gostan" "undur")])) initial
      = (Ok kamusList, st1, [KAMUS])
    /\ searchIndex st1 = buildSearchIndex kamusList
    /\ getAllKamus 5 6 suffixes (Throw networkError) st1 = (Ok kamusList, st1, []).
Proof.
  apply (getAllKamus_twice_fetches_once 0 1 5 6 suffixes suffixes
           [Some (rawRecord 1 "gostan" "undur")] (Throw networkError) initial eq_refl).
  reflexivity.
Defined.

(** The per-region cache: a first call with nothing cached for the region
    fetches the scoped endpoint once and caches the mapped list under the
    region id; a second call within the expiration window fetches nothing
    and returns the same list. *)
Theorem getKamusByNegeriId_twice_fetches_once (negeriId : string)
    (now0 now1 now2 now3 : Z) (random random' : nat -> string)
    (items : list (option KamusApiResponse.t)) (response' : Result Payload)
    (st : State) :
  kamusByNegeriCache st !! negeriId = None ->
  now2 - now1 < cacheExpirationTime ->
  exists kamusList st1,
    getKamusByNegeriId negeriId now0 now1 random (Ok (PArray items)) st
      = (Ok kamusList, st1, [KAMUS_BY_NEGERI negeriId])
    /\ kamusByNegeriCache st1 !! negeriId
       = Some {| data := kamusList; timestamp := now1 |}
    /\ getKamusByNegeriId negeriId now2 now3 random' response' st1
       = (Ok kamusList, st1, []).
Proof.
  intros Hnone Hfresh.
  exists (mapItems now1 random negeriId items). eexists. split; [|split].
  - unfold getKamusByNegeriId. rewrite Hnone. reflexivity.
  - cbn [kamusByNegeriCache]. by rewrite lookup_insert_eq.
  - unfold getKamusByNegeriId. cbn [kamusByNegeriCache].
    rewrite lookup_insert_eq. cbn [isCacheValid timestamp data].
    destruct (now2 - now1 <? cacheExpirationTime) eqn:Hlt; [done|lia].
Qed.

Lemma getKamusByNegeriId_twice_fetches_once_witness :
  exists kamusList st1,
    getKamusByNegeriId "5" 0 1 suffixes
      (Ok (PArray [Some (rawRecord 1 "gostan" "undur")])) initial
      = (Ok kamusList, st1, ["/kamus/negeri/5"])
    /\ kamusByNegeriCache st1 !! "5" = Some {| data := kamusList; timestamp := 1 |}
    /\ getKamusByNegeriId "5" 5 6 suffixes (Throw networkError) st1
       = (Ok kamusList, st1, []).
Proof.
  apply (getKamusByNegeriId_twice_fetches_once "5" 0 1 5 6 suffixes suffixes
           [Some (rawRecord 1 "gostan" "undur")] (Throw networkError) initial eq_refl).
  reflexivity.
Defined.

(** An empty or whitespace-only keyword gives the empty result, with no
    fetch and no change of state. *)
Theorem searchKamus_blank_keyword (keyword : string) (now now' : Z)
    (random : nat -> string) (response : Result Payload) (st : State) :
  trim keyword = "" ->
  searchKamus keyword now now' random response st = (Ok [], st, []).
Proof. intros Ht. unfold searchKamus. by rewrite Ht. Qed.

Lemma searchKamus_blank_keyword_witness :
  searchKamus "   " 0 1 suffixes (Throw networkError) initial = (Ok [], initial, []).
Proof.
  apply (searchKamus_blank_keyword "   " 0 1 suffixes (Throw networkError) initial).
  reflexivity.
Defined.


End KamusIndex.

(** ** NegeriRepositoryImpl: write-through of the full list *)

Section NegeriWriteThrough.
Import Js NegeriRepositoryImpl Scenario.

Lemma foldl_setById_negeriCache (now' : Z) (negeriList : list Negeri.t) (st : State) :
  negeriCache (foldl (fun s negeri => setById (Negeri.id negeri) (Some negeri) now' s)
                 st negeriList)
  = negeriCache st.
Proof.
  revert st. induction negeriList as [|n l IH]; intros st; [done|].
  simpl. by rewrite IH.
Qed.

Lemma foldl_setById_lookup (now' : Z) (negeriList : list Negeri.t) (st : State)
    (k : string) :
  let st' := foldl (fun s negeri => setById (Negeri.id negeri) (Some negeri) now' s)
               st negeriList in
  (exists negeri, negeri ∈ negeriList /\ Negeri.id negeri = k
                  /\ negeriByIdCache st' !! k
                     = Some {| data := Some negeri; timestamp := now' |})
  \/ ((forall negeri, negeri ∈ negeriList -> Negeri.id negeri <> k)
      /\ negeriByIdCache st' !! k = negeriByIdCache st !! k).
Proof.
  revert st. induction negeriList as [|n l IH]; intros st; simpl.
  - right. split; [|done]. intros negeri H. by apply elem_of_nil in H.
  - destruct (IH (setById (Negeri.id n) (Some n) now' st))
      as [(negeri & Hin & Hid & Hlook)|[Hnone Hlook]].
    + left. exists negeri. split; [by right|done].
    + destruct (decide (Negeri.id n = k)) as [Hk|Hk].
      * left. exists n. split; [left|]. split; [done|].
        rewrite Hlook. simpl. subst k. by rewrite lookup_insert_eq.
      * right. split.
        -- intros negeri Hin. apply elem_of_cons in Hin as [->|Hin]; auto.
        -- rewrite Hlook. simpl. by rewrite lookup_insert_ne.
Qed.

(** A fetch of the full list that succeeds replaces the full-list cache
    and stores, for every region of the list, a per-id entry of the same
    time holding a region of the list with that id. *)
Theorem getAllNegeri_writes_through (now now' : Z) (negeriList : list Negeri.t)
    (st : State) :
  isCacheValid now (negeriCache st) = false ->
  exists st',
    getAllNegeri now now' (Ok (Some negeriList)) st
    = (Ok (Some negeriList), st', [NEGERI])
    /\ negeriCache st' = Some {| data := Some negeriList; timestamp := now' |}
    /\ forall negeri, negeri ∈ negeriList ->
         exists stored, stored ∈ negeriList /\ Negeri.id stored = Negeri.id negeri
           /\ negeriByIdCache st' !! Negeri.id negeri
              = Some {| data := Some stored; timestamp := now' |}.
Proof.
  intros Hinvalid. eexists. split; [|split].
  - unfold getAllNegeri. rewrite Hinvalid. destruct (negeriCache st); reflexivity.
  - by rewrite foldl_setById_negeriCache.
  - intros negeri Hin.
    edestruct (foldl_setById_lookup now' negeriList) as [(stored & Hs & Hid & Hlook)|[Hnone _]].
    + exists stored. split; [exact Hs|]. split; [exact Hid|]. exact Hlook.
    + by destruct (Hnone negeri Hin).
Qed.

Lemma getAllNegeri_writes_through_witness :
  exists st',
    getAllNegeri 0 1 (Ok (Some [perak])) initial = (Ok (Some [perak]), st', [NEGERI])
    /\ negeriByIdCache st' !! "7" = Some {| data := Some perak; timestamp := 1 |}.
Proof.
  destruct (getAllNegeri_writes_through 0 1 [perak] initial eq_refl)
    as (st' & Hget & _ & _).
  exists st'. split; [exact Hget|].
  injection Hget as <-. reflexivity.
Defined.

End NegeriWriteThrough.

(** ** The interceptors: every request is accounted for *)

Section RequestLedger.
Import Interceptors Ledger.

Lemma filter_partition_perm {A} (f : A -> bool) (l : list A) :
  l ≡ₚ List.filter f l ++ List.filter (fun x => negb (f x)) l.
Proof.
  induction l as [|x l IH]; simpl; [done|].
  destruct (f x); simpl.
  - by rewrite <- IH.
  - by rewrite <- Permutation_middle, <- IH.
Qed.

Lemma filter_none {A} (f : A -> bool) (l : list A) :
  (forall x, x ∈ l -> f x = false) -> List.filter f l = [].
Proof.
  induction l as [|x l IH]; simpl; intros Hf; [done|].
  rewrite (Hf x) by left. apply IH. intros y Hy. apply Hf. by right.
Qed.

Lemma filter_rid_singleton (l : list Request) (r : Request) :
  NoDup (List.map rid l) -> r ∈ l ->
  List.filter (fun r' => Nat.eqb (rid r') (rid r)) l = [r].
Proof.
  induction l as [|x l IH]; simpl; intros Hnd Hr; [by apply elem_of_nil in Hr|].
  apply NoDup_cons in Hnd as [Hx Hnd].
  assert (forall y, y ∈ l -> rid y <> rid x) as Hfresh.
  { intros y Hy Heq. apply Hx. rewrite <- Heq.
    apply list_elem_of_In, in_map, list_elem_of_In, Hy. }
  apply elem_of_cons in Hr as [->|Hr].
  - rewrite Nat.eqb_refl. f_equal. apply filter_none.
    intros y Hy. apply Nat.eqb_neq. by apply Hfresh.
  - destruct (Nat.eqb (rid x) (rid r)) eqn:He.
    + apply Nat.eqb_eq in He. by destruct (Hfresh r Hr).
    + by apply IH.
Qed.

Lemma requestIds_cancel (source : nat) (st : State) :
  requestIds (cancel source st) ≡ₚ requestIds st.
Proof.
  unfold requestIds, cancel. simpl.
  rewrite List.map_app, List.map_map. simpl.
  rewrite (filter_partition_perm (fun r => Nat.eqb (rid r) source) (inFlight st)) at 3.
  rewrite List.map_app.
  rewrite <- !app_assoc. rewrite (Permutation_app_comm (List.map rid (List.filter (fun r => Nat.eqb (rid r) source) (inFlight st)))).
  rewrite <- !app_assoc. done.
Qed.

Lemma requestIds_cancelActiveRequest (u : string) (st : State) :
  requestIds (cancelActiveRequest u st) ≡ₚ requestIds st
  /\ issued (cancelActiveRequest u st) = issued st.
Proof.
  unfold cancelActiveRequest. destruct (activeRequests st !! u) as [source|]; [|done].
  split; [|done]. rewrite <- (requestIds_cancel source st). done.
Qed.

Lemma requestIds_issue (m : Method) (u : string) (st : State) :
  requestIds (issue m u st) ≡ₚ issued st :: requestIds st
  /\ issued (issue m u st) = S (issued st).
Proof.
  unfold issue. destruct (isGet m && hasUrl u).
  - destruct (requestIds_cancelActiveRequest u st) as [Hperm Hiss].
    unfold requestIds in *. simpl. rewrite List.map_app. simpl.
    rewrite Hiss. split; [|done].
    rewrite <- Hperm, <- app_assoc. simpl. by rewrite <- Permutation_middle.
  - unfold requestIds. simpl. rewrite List.map_app. simpl. split; [|done].
    rewrite <- app_assoc. simpl. by rewrite <- Permutation_middle.
Qed.

Lemma requestIds_deliver (how : Outcome) (id : nat) (st : State) :
  NoDup (requestIds st) ->
  requestIds (deliver how id st) ≡ₚ requestIds st
  /\ issued (deliver how id st) = issued st.
Proof.
  intros Hnd. unfold deliver.
  destruct (List.find _ (inFlight st)) as [r|] eqn:Hfind; [|done].
  apply find_some in Hfind as [Hr _]. apply list_elem_of_In in Hr.
  split; [|done]. unfold requestIds, settleRequest. simpl.
  apply NoDup_app in Hnd as (Hnd & _ & _).
  rewrite (filter_partition_perm (fun r' => Nat.eqb (rid r') (rid r)) (inFlight st)) at 2.
  rewrite (filter_rid_singleton _ _ Hnd Hr).
  rewrite !List.map_app. simpl.
  rewrite (Permutation_app_comm (List.map _ (settled st)) [rid r]). simpl.
  by rewrite <- Permutation_middle.
Qed.

Lemma requestIds_step (st : State) (ev : Event) :
  requestIds st ≡ₚ seq 0 (issued st) ->
  requestIds (step st ev) ≡ₚ seq 0 (issued (step st ev))
  /\ issued (step st ev) = (issued st + (if isIssue ev then 1 else 0))%nat.
Proof.
  intros Hperm.
  assert (NoDup (requestIds st)) as Hnd by (rewrite Hperm; apply NoDup_seq).
  destruct ev as [m u|id|id]; cbn [step isIssue].
  - destruct (requestIds_issue m u st) as [Hp ->]. split; [|lia].
    rewrite Hp, Hperm, seq_S. simpl. by rewrite <- Permutation_cons_append.
  - destruct (requestIds_deliver Completed id st Hnd) as [Hp ->].
    split; [by rewrite Hp|lia].
  - destruct (requestIds_deliver Failed id st Hnd) as [Hp ->].
    split; [by rewrite Hp|lia].
Qed.

Lemma requestIds_foldl (events : list Event) (st : State) :
  requestIds st ≡ₚ seq 0 (issued st) ->
  requestIds (foldl step st events) ≡ₚ seq 0 (issued (foldl step st events))
  /\ issued (foldl step st events) = (issued st + issues events)%nat.
Proof.
  revert st. induction events as [|ev events IH]; intros st Hperm.
  - simpl. split; [done|]. unfold issues. simpl. lia.
  - simpl. destruct (requestIds_step st ev Hperm) as [Hp Hi].
    destruct (IH _ Hp) as [Hp' Hi']. split; [done|].
    rewrite Hi', Hi. unfold issues. simpl. destruct (isIssue ev); simpl; lia.
Qed.

Lemma ledger_of_run (events : list Event) :
  requestIds (run events) ≡ₚ seq 0 (issues events)
  /\ NoDup (requestIds (run events)).
Proof.
  destruct (requestIds_foldl events initial) as [Hperm Hissued]; [done|].
  fold (run events) in *. simpl in Hissued. rewrite Hissued in Hperm.
  split; [exact Hperm|]. rewrite Hperm. apply NoDup_seq.
Qed.

Lemma settled_step_mono (st : State) (ev : Event) (p : Request * Outcome) :
  p ∈ settled st -> p ∈ settled (step st ev).
Proof.
  intros Hp. destruct ev as [m u|id|id]; simpl.
  - unfold issue. destruct (isGet m && hasUrl u); simpl; [|done].
    unfold cancelActiveRequest. destruct (activeRequests st !! u); simpl; [|done].
    apply elem_of_app. by left.
  - unfold deliver. destruct (List.find _ _); [|done]. simpl.
    apply elem_of_app. by left.
  - unfold deliver. destruct (List.find _ _); [|done]. simpl.
    apply elem_of_app. by left.
Qed.

Lemma settled_foldl_mono (events : list Event) (st : State) (p : Request * Outcome) :
  p ∈ settled st -> p ∈ settled (foldl step st events).
Proof.
  revert st. induction events as [|ev events IH]; intros st Hp; [done|].
  simpl. apply IH. by apply settled_step_mono.
Qed.

Lemma NoDup_map_same {A B} (f : A -> B) (l : list A) (x y : A) :
  NoDup (List.map f l) -> x ∈ l -> y ∈ l -> f x = f y -> x = y.
Proof.
  induction l as [|z l IH]; simpl; intros Hnd Hx Hy Heq; [by apply elem_of_nil in Hx|].
  apply NoDup_cons in Hnd as [Hz Hnd].
  assert (forall w, w ∈ l -> f w <> f z) as Hfresh.
  { intros w Hw Hfw. apply Hz. rewrite <- Hfw.
    apply list_elem_of_In, in_map, list_elem_of_In, Hw. }
  apply elem_of_cons in Hx as [->|Hx]; apply elem_of_cons in Hy as [->|Hy].
  - done.
  - symmetry in Heq. by destruct (Hfresh y Hy).
  - by destruct (Hfresh x Hx).
  - by apply IH.
Qed.

(** A GET in flight to a url is cancelled by the next GET to that url,
    provided only GETs went through the shared instance until then; it is
    logged as cancelled and, whatever happens afterwards, never completes
    normally. *)
Theorem superseded_get_never_completes (pre post : list Event) (u : string)
    (r : Request) :
  Forall (fun ev => isGetEvent ev = true) pre ->
  u <> "" ->
  r ∈ inFlight (run pre) ->
  url r = u ->
  ((r, Cancelled) ∈ settled (run (pre ++ Issue GET u :: post)))
  /\ ((r, Completed) ∉ settled (run (pre ++ Issue GET u :: post)))
  /\ (r ∉ inFlight (run (pre ++ Issue GET u :: post))).
Proof.
  intros Hpre Hu Hr Hurl. subst u.
  destruct (tracked_foldl pre initial tracked_initial Hpre) as (_ & _ & Hact).
  fold (run pre) in Hact.
  assert (hasUrl (url r) = true) as Hhas.
  { unfold hasUrl. destruct (String.eqb (url r) "") eqn:He; [|done].
    by apply String.eqb_eq in He. }
  assert ((r, Cancelled) ∈ settled (run (pre ++ Issue GET (url r) :: post)))
    as Hcancelled.
  { unfold run. rewrite foldl_app. cbn [foldl]. apply settled_foldl_mono.
    fold (run pre). cbn [step]. unfold issue. cbn [isGet andb]. rewrite Hhas.
    unfold cancelActiveRequest. rewrite (Hact r Hr Hhas). simpl.
    apply elem_of_app. right.
    apply list_elem_of_In, in_map_iff. exists r. split; [done|].
    apply filter_In. split; [by apply list_elem_of_In|apply Nat.eqb_refl]. }
  destruct (ledger_of_run (pre ++ Issue GET (url r) :: post)) as [_ Hnd].
  unfold requestIds in Hnd. apply NoDup_app in Hnd as (_ & Hdisjoint & Hnd).
  split; [done|]. split.
  - intros Hcompleted.
    pose proof (NoDup_map_same (fun p => rid (fst p)) _ _ _ Hnd Hcancelled Hcompleted
                  eq_refl) as Heq.
    discriminate.
  - intros Hin. apply (Hdisjoint (rid r)).
    + apply list_elem_of_In, in_map, list_elem_of_In, Hin.
    + apply list_elem_of_In, in_map_iff. exists (r, Cancelled).
      split; [done|]. by apply list_elem_of_In.
Qed.

(** Two look-ups of the same list in a row: the first request, in flight
    when the second is issued, ends up cancelled although a response for
    it arrives later. *)
Lemma superseded_get_never_completes_witness :
  let r := {| rid := 0%nat; method := GET; url := "/kamus" |} in
  let events := [Issue GET "/kamus"; Issue GET "/kamus"; Respond 0; Respond 1] in
  ((r, Cancelled) ∈ settled (run events))
  /\ ((r, Completed) ∉ settled (run events))
  /\ (r ∉ inFlight (run events)).
Proof.
  apply (superseded_get_never_completes [Issue GET "/kamus"] [Respond 0; Respond 1]
           "/kamus" {| rid := 0%nat; method := GET; url := "/kamus" |}).
  - repeat constructor.
  - discriminate.
  - vm_compute. apply list_elem_of_here.
  - reflexivity.
Defined.

End RequestLedger.

(** ** Strings: trimming, letter case and tokens *)

Section KeywordNormalisation.
Import Js KamusRepositoryImpl.

Lemma lowerChar_idem (c : ascii) : lowerChar (lowerChar c) = lowerChar c.
Proof. destruct c as [[] [] [] [] [] [] [] []]; reflexivity. Qed.

Lemma wordChar_not_whiteSpace (c : ascii) : isWordChar c = true -> isWhiteSpace c = false.
Proof. destruct c as [[] [] [] [] [] [] [] []]; vm_compute; congruence. Qed.

Lemma toLowerCase_idem (s : string) : toLowerCase (toLowerCase s) = toLowerCase s.
Proof. induction s as [|c s IH]; simpl; [done|]. by rewrite lowerChar_idem, IH. Qed.

Lemma toLowerCase_empty (s : string) :
  String.eqb (toLowerCase s) "" = String.eqb s "".
Proof. by destruct s. Qed.

(** A string that does not start with white space. *)
Lemma trimStart_fixed (s : string) :
  match s with
  | EmptyString => True
  | String c _ => isWhiteSpace c = false
  end -> trimStart s = s.
Proof. destruct s as [|c s]; simpl; [done|]. by intros ->. Qed.

Lemma trimStart_no_leading_space (s : string) :
  match trimStart s with
  | EmptyString => True
  | String c _ => isWhiteSpace c = false
  end.
Proof.
  induction s as [|c s IH]; simpl; [done|].
  destruct (isWhiteSpace c) eqn:Hc; [done|]. exact Hc.
Qed.

Lemma trimEnd_keeps_start (s : string) :
  match s with
  | EmptyString => True
  | String c _ => isWhiteSpace c = false
  end ->
  match trimEnd s with
  | EmptyString => True
  | String c _ => isWhiteSpace c = false
  end.
Proof.
  destruct s as [|c s]; simpl; [done|]. intros Hc.
  destruct (trimEnd s); [by rewrite Hc|done].
Qed.

Lemma trimEnd_idem (s : string) : trimEnd (trimEnd s) = trimEnd s.
Proof.
  induction s as [|c s IH]; simpl; [done|].
  destruct (trimEnd s) as [|d t] eqn:Ht.
  - destruct (isWhiteSpace c) eqn:Hc; simpl; [done|]. by rewrite Hc.
  - cbn [trimEnd]. cbn [trimEnd] in IH. by rewrite IH.
Qed.

(** Trimming twice is trimming once. *)
Lemma trim_idem (s : string) : trim (trim s) = trim s.
Proof.
  unfold trim.
  rewrite (trimStart_fixed (trimEnd (trimStart s))).
  - apply trimEnd_idem.
  - apply trimEnd_keeps_start, trimStart_no_leading_space.
Qed.

Lemma trim_fixed (s : string) :
  Forall (fun c => isWhiteSpace c = false) (list_ascii_of_string s) -> trim s = s.
Proof.
  intros Hs. unfold trim. rewrite trimStart_fixed.
  - induction s as [|c s IH]; simpl; [done|]. simpl in Hs.
    apply Forall_cons in Hs as [Hc Hs]. rewrite (IH Hs), Hc. by destruct s.
  - destruct s as [|c s]; [done|]. simpl in Hs. by apply Forall_cons in Hs as [Hc _].
Qed.

(** The pieces of a split hold no separator, and only characters of the
    string that was split. *)
Lemma split_pieces (isSep : ascii -> bool) (s piece : string) :
  piece ∈ split isSep s ->
  Forall (fun c => isSep c = false /\ c ∈ list_ascii_of_string s)
         (list_ascii_of_string piece).
Proof.
  revert piece. induction s as [|c s IH]; intros piece; cbn [split].
  - intros Hp. apply list_elem_of_singleton in Hp. subst piece. constructor.
  - assert (forall q, q ∈ split isSep s ->
              Forall (fun c0 => isSep c0 = false
                                /\ c0 ∈ list_ascii_of_string (String c s))
                     (list_ascii_of_string q)) as IH'.
    { intros q Hq. eapply Forall_impl; [apply IH, Hq|].
      intros c0 [H1 H2]. split; [done|]. simpl. by right. }
    destruct (isSep c) eqn:Hc.
    + intros Hp. apply elem_of_cons in Hp as [->|Hp]; [constructor|by apply IH'].
    + destruct (split isSep s) as [|hd tl] eqn:Hs.
      * intros Hp. apply list_elem_of_singleton in Hp. subst piece. simpl.
        constructor; [|constructor]. split; [done|]. simpl. left.
      * intros Hp. apply elem_of_cons in Hp as [->|Hp].
        -- simpl. constructor; [split; [done|simpl; left]|]. apply IH'. left.
        -- apply IH'. by right.
Qed.

Lemma chars_of_toLowerCase (s : string) (c : ascii) :
  c ∈ list_ascii_of_string (toLowerCase s) -> lowerChar c = c.
Proof.
  induction s as [|d s IH]; simpl; intros Hc; [by apply elem_of_nil in Hc|].
  apply elem_of_cons in Hc as [->|Hc]; [apply lowerChar_idem|by apply IH].
Qed.

(** Every token has at least two characters, all of them digits, ASCII
    letters or underscores, and none of them upper-case. So the steps of
    [tokenizeText] around the split and the length filter never change
    anything: not the test for an empty text, not the [trim] of the
    tokens, not the removal of empty tokens. *)
Theorem tokenizeText_tokens_are_lowercase_words (text : string) :
  (forall token,
     token ∈ tokenizeText text ->
     (2 <= String.length token)%nat
     /\ Forall (fun c => isWordChar c = true /\ lowerChar c = c)
               (list_ascii_of_string token))
  /\ tokenizeText text
     = List.filter (fun token => Nat.ltb 1 (String.length token))
         (split (fun c => negb (isWordChar c)) (toLowerCase text)).
Proof.
  assert (forall piece,
            piece ∈ List.filter (fun token => Nat.ltb 1 (String.length token))
                      (split (fun c => negb (isWordChar c)) (toLowerCase text)) ->
            (2 <= String.length piece)%nat
            /\ Forall (fun c => isWordChar c = true /\ lowerChar c = c)
                      (list_ascii_of_string piece)
            /\ trim piece = piece) as Hpieces.
  { intros piece Hp. apply list_elem_of_In, filter_In in Hp as [Hp Hlen].
    apply Nat.ltb_lt in Hlen. apply list_elem_of_In, split_pieces in Hp.
    split; [lia|]. split.
    - eapply Forall_impl; [exact Hp|]. intros c [Hc Hin]. split.
      + by destruct (isWordChar c).
      + by apply chars_of_toLowerCase in Hin.
    - apply trim_fixed. eapply Forall_impl; [exact Hp|].
      intros c [Hc _]. apply wordChar_not_whiteSpace.
      by destruct (isWordChar c). }
  assert (tokenizeText text
          = List.filter (fun token => Nat.ltb 1 (String.length token))
              (split (fun c => negb (isWordChar c)) (toLowerCase text))) as Hsame.
  { unfold tokenizeText. destruct (String.eqb text "") eqn:He.
    - apply String.eqb_eq in He. by subst text.
    - revert Hpieces.
      generalize (List.filter (fun token => Nat.ltb 1 (String.length token))
                    (split (fun c => negb (isWordChar c)) (toLowerCase text))).
      intros pieces Hpieces. induction pieces as [|piece pieces IH]; [done|].
      destruct (Hpieces piece) as (Hlen & _ & Hfixed); [by left|].
      simpl. rewrite Hfixed.
      destruct (String.eqb piece "") eqn:Hempty.
      + apply String.eqb_eq in Hempty. subst piece. simpl in Hlen. lia.
      + simpl. f_equal. apply IH. intros p Hp. apply Hpieces. by right. }
  split; [|exact Hsame].
  intros token Ht. rewrite Hsame in Ht.
  destruct (Hpieces token Ht) as (Hlen & Hchars & _). done.
Qed.

Lemma tokenizeText_tokens_are_lowercase_words_witness :
  (2 <= String.length "belakang")%nat
  /\ Forall (fun c => isWordChar c = true /\ lowerChar c = c)
            (list_ascii_of_string "belakang").
Proof.
  apply (proj1 (tokenizeText_tokens_are_lowercase_words "Undur ke BELAKANG!") "belakang").
  vm_compute. right. right. left.
Defined.

Lemma tokenizeText_toLowerCase (text : string) :
  tokenizeText (toLowerCase text) = tokenizeText text.
Proof. unfold tokenizeText. by rewrite toLowerCase_empty, toLowerCase_idem. Qed.

Lemma simpleFilter_toLowerCase (keyword : string) (allKamus : list Kamus.t) :
  simpleFilter (toLowerCase keyword) allKamus = simpleFilter keyword allKamus.
Proof. unfold simpleFilter. by rewrite toLowerCase_idem. Qed.

(** The search sees the keyword only through the lower-case form of its
    trimmed text and through the side of the two-character threshold that
    the trimmed text is on: two keywords that agree on both give the same
    result, the same state and the same fetches. *)
Theorem searchKamus_ignores_letter_case (keyword keyword' : string) (now now' : Z)
    (random : nat -> string) (response : Result Payload) (st : State) :
  toLowerCase (trim keyword) = toLowerCase (trim keyword') ->
  Nat.leb (String.length (trim keyword)) 2 = Nat.leb (String.length (trim keyword')) 2 ->
  searchKamus keyword now now' random response st
  = searchKamus keyword' now now' random response st.
Proof.
  intros Hlower Hside. unfold searchKamus.
  rewrite <- (toLowerCase_empty (trim keyword)), <- (toLowerCase_empty (trim keyword')).
  rewrite Hlower.
  destruct (String.eqb (toLowerCase (trim keyword')) ""); [done|].
  destruct (getAllKamus now now' random response st) as [[[allKamus|e] st'] fetches];
    [|done].
  assert (forall index,
            searchLoaded (trim keyword) allKamus index
            = searchLoaded (trim keyword') allKamus index) as ->; [|done].
  intros index. unfold searchLoaded. rewrite Hside.
  rewrite <- (simpleFilter_toLowerCase (trim keyword)),
    <- (simpleFilter_toLowerCase (trim keyword')),
    <- (tokenizeText_toLowerCase (trim keyword)),
    <- (tokenizeText_toLowerCase (trim keyword')).
  by rewrite Hlower.
Qed.

(** ["GOSTAN"] and ["Gostan"] find the same entries. *)
Lemma searchKamus_ignores_letter_case_witness :
  searchKamus "GOSTAN" 2000 2001 Scenario.suffixes (Throw Scenario.networkError)
    Scenario.loaded
  = searchKamus "Gostan" 2000 2001 Scenario.suffixes (Throw Scenario.networkError)
      Scenario.loaded.
Proof. apply searchKamus_ignores_letter_case; vm_compute; reflexivity. Defined.

(** The search does not see white space around the keyword: the screens
    pass the trimmed query, and the result is that of the query as typed. *)
Theorem searchKamus_ignores_surrounding_whitespace (keyword : string) (now now' : Z)
    (random : nat -> string) (response : Result Payload) (st : State) :
  searchKamus (trim keyword) now now' random response st
  = searchKamus keyword now now' random response st.
Proof. unfold searchKamus. by rewrite trim_idem. Qed.

End KeywordNormalisation.

(** ** The entry repository over sequences of calls *)

Section KamusSequences.
Import Js KamusRepositoryImpl SearchSpec KamusUse.

(** What a successful [getAllKamus] leaves: the returned list is the cached
    one, and an index in sync stays in sync. *)
Lemma getAllKamus_ok (now now' : Z) (random : nat -> string)
    (response : Result Payload) (st st' : State) (allKamus : list Kamus.t)
    (fetches : list string) :
  getAllKamus now now' random response st = (Ok allKamus, st', fetches) ->
  cachedList st' = allKamus
  /\ kamusByNegeriCache st' = kamusByNegeriCache st
  /\ (indexInSync st -> indexInSync st').
Proof.
  unfold getAllKamus, cachedList, indexInSync.
  destruct (kamusCache st) as [c|] eqn:Hc.
  - destruct (isCacheValid now (Some c)).
    + intros [= <- <- <-]. by rewrite Hc.
    + destruct (processResponse _ _ _ _).
      * intros [= <- <- <-]. done.
      * intros [= <- <- <-]. by rewrite Hc.
  - destruct (processResponse _ _ _ _); [|done].
    intros [= <- <- <-]. done.
Qed.

Lemma getAllKamus_throw (now now' : Z) (random : nat -> string)
    (response : Result Payload) (st st' : State) (error : Error)
    (fetches : list string) :
  getAllKamus now now' random response st = (Throw error, st', fetches) ->
  st' = st /\ kamusCache st = None /\ fetchFails response = true.
Proof.
  unfold getAllKamus.
  pose proof (processResponse_fails now' random "0" response) as Hp.
  destruct (kamusCache st) as [c|] eqn:Hc.
  - destruct (isCacheValid now (Some c)); [done|].
    by destruct (processResponse _ _ _ _).
  - destruct (processResponse _ _ _ _); [done|].
    intros [= <- <- <-]. split; [done|]. split; [done|].
    simpl in Hp. by destruct (fetchFails response).
Qed.

Lemma ensureIndex_in_sync (st : State) :
  indexInSync st -> ensureIndex (cachedList st) st = st.
Proof.
  unfold indexInSync, ensureIndex. intros Hsync.
  destruct (Nat.eqb (size (searchIndex st)) 0); [|done].
  rewrite <- Hsync. by destruct st.
Qed.

Lemma exec_keeps_index_in_sync (st : State) (call : Call) :
  indexInSync st -> indexInSync (exec st call).
Proof.
  intros Hsync. destruct call as [now now' random response
                                 |id now now' random response
                                 |negeriId now now' random response
                                 |keyword now now' random response
                                 | |negeriId]; cbn [exec].
  - destruct (getAllKamus now now' random response st) as [[[all|e] st'] f] eqn:Hget.
    + by apply (getAllKamus_ok _ _ _ _ _ _ _ _ Hget).
    + by destruct (getAllKamus_throw _ _ _ _ _ _ _ _ Hget) as [-> _].
  - unfold getKamusById.
    destruct (getAllKamus now now' random response st) as [[[all|e] st'] f] eqn:Hget.
    + pose proof (proj2 (proj2 (getAllKamus_ok _ _ _ _ _ _ _ _ Hget)) Hsync) as Hs'.
      destruct (kamusCache st) as [c|]; [|done].
      destruct (isCacheValid now (Some c)); [|done].
      by destruct (findById id (data c)).
    + destruct (getAllKamus_throw _ _ _ _ _ _ _ _ Hget) as [-> _].
      destruct (kamusCache st) as [c|]; [|done].
      destruct (isCacheValid now (Some c)); [|done].
      by destruct (findById id (data c)).
  - unfold getKamusByNegeriId.
    destruct (kamusByNegeriCache st !! negeriId) as [c|].
    + destruct (isCacheValid now (Some c)); [done|].
      by destruct (processResponse _ _ _ _).
    + by destruct (processResponse _ _ _ _).
  - unfold searchKamus. destruct (String.eqb (trim keyword) ""); [done|].
    destruct (getAllKamus now now' random response st) as [[[all|e] st'] f] eqn:Hget.
    + destruct (getAllKamus_ok _ _ _ _ _ _ _ _ Hget) as (Hlist & _ & Hs').
      simpl. rewrite <- Hlist. by rewrite ensureIndex_in_sync; auto.
    + by destruct (getAllKamus_throw _ _ _ _ _ _ _ _ Hget) as [-> _].
  - done.
  - done.
Qed.

(** Whatever sequence of calls a fresh repository has served, and
    whatever well-typed answers the gateway gave (rejections, falsy and
    primitive bodies, and lists of records whose text fields are strings
    or absent, as the interface declares them), its search index is the
    one built from the full list it holds (the empty index when it holds
    none). *)
Theorem index_is_always_in_sync (calls : list Call) : indexInSync (after calls).
Proof.
  unfold after. assert (indexInSync initial) as Hinit by done.
  revert Hinit. generalize initial. induction calls as [|call calls IH]; intros st Hs.
  - done.
  - simpl. apply IH. by apply exec_keeps_index_in_sync.
Qed.

Lemma inIdSet_buildSearchIndex (kamusList : list Kamus.t) (token id : string) :
  inIdSet (buildSearchIndex kamusList) token id <->
  exists kamus, kamus ∈ kamusList /\ Kamus.id kamus = id /\ token ∈ tokensOf kamus.
Proof.
  unfold buildSearchIndex. rewrite inIdSet_fold_entries. split; [|by right].
  intros [(ids & Hids & _)|H]; [|done]. by rewrite lookup_empty in Hids.
Qed.

(** With the index in sync and no two loaded entries sharing an id: if
    some entry holds every token of a keyword longer than two characters,
    the search returns exactly the loaded entries that hold every token
    among the tokens of their word and meaning. *)
Theorem searchKamus_finds_the_entries_holding_every_token (keyword : string)
    (now now' : Z) (random : nat -> string) (response : Result Payload)
    (st st' : State) (allKamus : list Kamus.t) (fetches : list string) :
  indexInSync st ->
  getAllKamus now now' random response st = (Ok allKamus, st', fetches) ->
  NoDup (List.map Kamus.id allKamus) ->
  (2 < String.length (trim keyword))%nat ->
  tokenizeText (trim keyword) <> [] ->
  (exists kamus, kamus ∈ allKamus
                 /\ forall token, token ∈ tokenizeText (trim keyword) ->
                                  token ∈ tokensOf kamus) ->
  exists result,
    searchKamus keyword now now' random response st = (Ok result, st', fetches)
    /\ forall kamus,
         kamus ∈ result <->
         kamus ∈ allKamus
         /\ forall token, token ∈ tokenizeText (trim keyword) -> token ∈ tokensOf kamus.
Proof.
  intros Hsync Hget Hnodup Hlen Htokens (witness & Hwin & Hwtokens).
  destruct (getAllKamus_ok _ _ _ _ _ _ _ _ Hget) as (Hlist & _ & Hsync').
  specialize (Hsync' Hsync).
  assert (ensureIndex allKamus st' = st') as Hensure
    by (rewrite <- Hlist; by apply ensureIndex_in_sync).
  assert (searchIndex st' = buildSearchIndex allKamus) as Hindex
    by (by rewrite <- Hlist).
  assert (trim keyword <> "") as Hne by (apply nonempty_of_length; lia).
  rewrite searchKamus_unfold, Hget, Hensure, Hindex by done.
  eexists. split; [reflexivity|].
  destruct (searchLoaded_long_keyword (trim keyword) allKamus
              (buildSearchIndex allKamus) Hlen Htokens) as (Hand & _ & _).
  assert (forall kamus, kamus ∈ allKamus ->
            (inEveryIdSet (buildSearchIndex allKamus) (tokenizeText (trim keyword))
               (Kamus.id kamus)
             <-> forall token, token ∈ tokenizeText (trim keyword) ->
                               token ∈ tokensOf kamus)) as Hchar.
  { intros kamus Hin. unfold inEveryIdSet. split.
    - intros Hevery token Ht.
      destruct (proj1 (inIdSet_buildSearchIndex allKamus token (Kamus.id kamus))
                  (Hevery token Ht)) as (other & Hother & Hid & Htok).
      by rewrite <- (NoDup_map_same Kamus.id allKamus other kamus Hnodup Hother Hin Hid).
    - intros Hall token Ht.
      apply (inIdSet_buildSearchIndex allKamus token (Kamus.id kamus)).
      exists kamus. auto. }
  assert (andSemantics (buildSearchIndex allKamus) (tokenizeText (trim keyword))
            allKamus
            (searchLoaded (trim keyword) allKamus (buildSearchIndex allKamus)))
    as Hresult.
  { apply Hand.
    - intros token Ht.
      destruct (proj2 (inIdSet_buildSearchIndex allKamus token (Kamus.id witness)))
        as (ids & Hids & _); [exists witness; auto|]. by exists ids.
    - exists (Kamus.id witness). by apply Hchar. }
  intros kamus. rewrite (Hresult kamus).
  split; intros [Hin H]; (split; [done|]); by apply Hchar.
Qed.

(** ["undur belakang"] on the two loaded entries: only the first holds
    both tokens. *)
Lemma searchKamus_finds_the_entries_holding_every_token_witness :
  exists result,
    searchKamus "undur belakang" 2000 2001 Scenario.suffixes
      (Throw Scenario.networkError) Scenario.loaded
    = (Ok result, Scenario.loaded, [])
    /\ forall kamus,
         kamus ∈ result <->
         kamus ∈ [Scenario.gostan; Scenario.kona]
         /\ forall token, token ∈ tokenizeText (trim "undur belakang") ->
                          token ∈ tokensOf kamus.
Proof.
  apply searchKamus_finds_the_entries_holding_every_token.
  - reflexivity.
  - reflexivity.
  - apply (bool_decide_unpack _). vm_compute. reflexivity.
  - vm_compute. lia.
  - vm_compute. discriminate.
  - exists Scenario.gostan. split; [apply list_elem_of_here|].
    intros token Ht. apply list_elem_of_In in Ht. vm_compute in Ht.
    destruct Ht as [<-|[<-|[]]]; apply list_elem_of_In; vm_compute; tauto.
Defined.

Lemma filter_sublist {A} (f : A -> bool) (l : list A) : sublist (List.filter f l) l.
Proof.
  induction l as [|x l IH]; simpl; [constructor|].
  destruct (f x); by constructor.
Qed.

Lemma searchLoaded_sublist (keyword : string) (allKamus : list Kamus.t) (index : Index) :
  sublist (searchLoaded keyword allKamus index) allKamus.
Proof.
  unfold searchLoaded, simpleFilter.
  destruct (Nat.leb _ 2); [apply filter_sublist|].
  destruct (tokenizeText keyword); [apply sublist_nil_l|].
  destruct (foldl _ _ _); [|apply filter_sublist].
  destruct (Nat.eqb _ 0); apply filter_sublist.
Qed.

(** Whatever the keyword and the index, a search that succeeds returns
    entries of the full list the repository holds afterwards, in the order
    of that list and without repeating any of its positions. *)
Theorem searchKamus_returns_loaded_entries_in_order (keyword : string) (now now' : Z)
    (random : nat -> string) (response : Result Payload) (st st' : State)
    (result : list Kamus.t) (fetches : list string) :
  searchKamus keyword now now' random response st = (Ok result, st', fetches) ->
  sublist result (cachedList st').
Proof.
  unfold searchKamus. destruct (String.eqb (trim keyword) "").
  - intros [= <- <- <-]. apply sublist_nil_l.
  - destruct (getAllKamus now now' random response st) as [[[all|e] st1] f] eqn:Hget;
      [|done].
    intros [= <- <- <-].
    destruct (getAllKamus_ok _ _ _ _ _ _ _ _ Hget) as (Hlist & _ & _).
    assert (cachedList (ensureIndex all st1) = all) as ->
      by (unfold ensureIndex; by destruct (Nat.eqb _ 0)).
    apply searchLoaded_sublist.
Qed.

(** The entries found for ["ko"] are a sublist of the two loaded ones. *)
Lemma searchKamus_returns_loaded_entries_in_order_witness :
  sublist [Scenario.kona] (cachedList Scenario.loaded).
Proof.
  apply (searchKamus_returns_loaded_entries_in_order "ko" 2000 2001 Scenario.suffixes
           (Throw Scenario.networkError) Scenario.loaded Scenario.loaded
           [Scenario.kona] []).
  vm_compute. reflexivity.
Defined.

(** [getKamusById]: an entry that is returned has the id that was asked
    for and is in the full list the repository then holds; [null] means
    that no entry of that list has the id; and an error means that nothing
    was cached and the fetch failed. *)
Theorem getKamusById_result (id : string) (now now' : Z) (random : nat -> string)
    (response : Result Payload) (st st' : State)
    (result : Result (option Kamus.t)) (fetches : list string) :
  getKamusById id now now' random response st = (result, st', fetches) ->
  match result with
  | Ok (Some kamus) => Kamus.id kamus = id /\ kamus ∈ cachedList st'
  | Ok None => forall kamus, kamus ∈ cachedList st' -> Kamus.id kamus <> id
  | Throw _ => kamusCache st = None /\ fetchFails response = true /\ st' = st
  end.
Proof.
  assert (forall l kamus, findById id l = Some kamus -> Kamus.id kamus = id /\ kamus ∈ l)
    as Hsome.
  { intros l kamus Hf. apply find_some in Hf as [Hin Heq].
    apply String.eqb_eq in Heq. split; [done|]. by apply list_elem_of_In. }
  assert (forall l, findById id l = None -> forall kamus, kamus ∈ l -> Kamus.id kamus <> id)
    as Hnone.
  { intros l Hf kamus Hin Heq. apply list_elem_of_In in Hin.
    pose proof (find_none _ _ Hf kamus Hin) as Hneq. simpl in Hneq.
    apply String.eqb_neq in Hneq. done. }
  assert (forall r s f,
            match getAllKamus now now' random response st with
            | (Ok allKamus, s1, f1) => (Ok (findById id allKamus), s1, f1)
            | (Throw error, s1, f1) => (Throw error, s1, f1)
            end = (r, s, f) ->
            match r with
            | Ok (Some kamus) => Kamus.id kamus = id /\ kamus ∈ cachedList s
            | Ok None => forall kamus, kamus ∈ cachedList s -> Kamus.id kamus <> id
            | Throw _ => kamusCache st = None /\ fetchFails response = true /\ s = st
            end) as HviaAll.
  { intros r s f.
    destruct (getAllKamus now now' random response st) as [[[all|e] s1] f1] eqn:Hget.
    - destruct (getAllKamus_ok _ _ _ _ _ _ _ _ Hget) as (Hlist & _ & _).
      intros [= <- <- <-]. rewrite Hlist.
      destruct (findById id all) eqn:Hf; [by apply Hsome|by apply Hnone].
    - destruct (getAllKamus_throw _ _ _ _ _ _ _ _ Hget) as (-> & Hc & Hfail).
      intros [= <- <- <-]. done. }
  unfold getKamusById. destruct (kamusCache st) as [c|] eqn:Hc; [|apply HviaAll].
  destruct (isCacheValid now (Some c)); [|apply HviaAll].
  destruct (findById id (data c)) as [kamus|] eqn:Hf; [|apply HviaAll].
  intros [= <- <- <-]. unfold cachedList. rewrite Hc. by apply Hsome.
Qed.

(** Looking up id ["2"] in the loaded repository gives the entry with that
    id, and it is one of the cached list. *)
Lemma getKamusById_result_witness :
  Kamus.id Scenario.kona = "2" /\ Scenario.kona ∈ cachedList Scenario.loaded.
Proof.
  apply (getKamusById_result "2" 2000 2001 Scenario.suffixes
           (Throw Scenario.networkError) Scenario.loaded Scenario.loaded
           (Ok (Some Scenario.kona)) []).
  vm_compute. reflexivity.
Defined.

(** [getKamusByNegeriId] falls back on the entry of the region asked for,
    and on nothing else: when the fetch fails, be it that the request is
    rejected or that it resolves with a falsy or a primitive body, the
    list cached for that region, expired or not, is returned and the state
    is left as it was; an error comes out exactly when that region has no
    entry and the fetch fails, whatever the full list or other regions
    have cached. *)
Theorem getKamusByNegeriId_falls_back_to_its_region (negeriId : string)
    (now now' : Z) (random : nat -> string) (st : State) :
  let fallBack (error : Error) :=
    match kamusByNegeriCache st !! negeriId with
    | Some c => (Ok (data c), st,
                 if isCacheValid now (Some c) then [] else [KAMUS_BY_NEGERI negeriId])
    | None => (Throw error, st, [KAMUS_BY_NEGERI negeriId])
    end in
  (forall error,
     getKamusByNegeriId negeriId now now' random (Throw error) st = fallBack error)
  /\ getKamusByNegeriId negeriId now now' random (Ok PFalsy) st
     = fallBack (newError "API response is null or undefined")
  /\ getKamusByNegeriId negeriId now now' random (Ok PScalar) st
     = fallBack (newError "Invalid API response format: cannot convert to array")
  /\ (forall response,
        fetchFails response = true <->
        (exists error, response = Throw error)
        \/ response = Ok PFalsy \/ response = Ok PScalar)
  /\ forall response,
       isOk (getKamusByNegeriId negeriId now now' random response st).1.1 = false <->
       kamusByNegeriCache st !! negeriId = None /\ fetchFails response = true.
Proof.
  intros fallBack. subst fallBack.
  assert (forall response error,
            processResponse now' random negeriId response = Throw error ->
            getKamusByNegeriId negeriId now now' random response st
            = match kamusByNegeriCache st !! negeriId with
              | Some c => (Ok (data c), st,
                           if isCacheValid now (Some c) then []
                           else [KAMUS_BY_NEGERI negeriId])
              | None => (Throw error, st, [KAMUS_BY_NEGERI negeriId])
              end) as Hfail.
  { intros response error Hp. unfold getKamusByNegeriId. rewrite Hp.
    destruct (kamusByNegeriCache st !! negeriId) as [c|]; [|done].
    by destruct (isCacheValid now (Some c)). }
  split; [|split; [|split; [|split]]].
  - intros error. by apply Hfail.
  - by apply Hfail.
  - by apply Hfail.
  - apply fetchFails_cases.
  - intros response. unfold getKamusByNegeriId.
    pose proof (processResponse_fails now' random negeriId response) as Hp.
    destruct (kamusByNegeriCache st !! negeriId) as [c|].
    + destruct (isCacheValid now (Some c)); [simpl; split; [done|by intros [? _]]|].
      destruct (processResponse _ _ _ _); simpl; (split; [done|by intros [? _]]).
    + destruct (processResponse _ _ _ _); simpl in *.
      * split; [done|]. intros [_ Hf]. rewrite Hf in Hp. done.
      * split; [|done]. intros _. split; [done|]. by destruct (fetchFails response).
Qed.

(** The full list and the per-region lists are cached apart. Loading,
    looking up or searching the full list never touches a per-region
    entry; loading a region never touches the full list, the search index
    or the entry of another region. *)
Theorem full_list_and_region_caches_are_kept_apart (st : State) :
  (forall now now' random response,
     kamusByNegeriCache (exec st (GetAllKamus now now' random response))
     = kamusByNegeriCache st)
  /\ (forall id now now' random response,
        kamusByNegeriCache (exec st (GetKamusById id now now' random response))
        = kamusByNegeriCache st)
  /\ (forall keyword now now' random response,
        kamusByNegeriCache (exec st (SearchKamus keyword now now' random response))
        = kamusByNegeriCache st)
  /\ (forall negeriId now now' random response,
        let st' := exec st (GetKamusByNegeriId negeriId now now' random response) in
        kamusCache st' = kamusCache st
        /\ searchIndex st' = searchIndex st
        /\ forall other, other <> negeriId ->
             kamusByNegeriCache st' !! other = kamusByNegeriCache st !! other).
Proof.
  assert (forall now now' random response,
            kamusByNegeriCache (getAllKamus now now' random response st).1.2
            = kamusByNegeriCache st) as Hall.
  { intros now now' random response.
    destruct (getAllKamus now now' random response st) as [[[all|e] st'] f] eqn:Hget.
    - by destruct (getAllKamus_ok _ _ _ _ _ _ _ _ Hget) as (_ & Hk & _).
    - by destruct (getAllKamus_throw _ _ _ _ _ _ _ _ Hget) as (Hst & _); subst st'. }
  split; [exact Hall|]. split; [|split].
  - intros id now now' random response. cbn [exec]. unfold getKamusById.
    specialize (Hall now now' random response).
    destruct (getAllKamus now now' random response st) as [[[all|e] st1] f];
      simpl in Hall; repeat case_match; simplify_eq/=; done.
  - intros keyword now now' random response. cbn [exec]. unfold searchKamus.
    specialize (Hall now now' random response).
    destruct (getAllKamus now now' random response st) as [[[all|e] st1] f];
      simpl in Hall; unfold ensureIndex; repeat case_match; simplify_eq/=; done.
  - intros negeriId now now' random response st'. subst st'. cbn [exec].
    unfold getKamusByNegeriId.
    repeat case_match; simplify_eq/=; try done.
    all: split; [done|]; split; [done|]; intros other Hne; by rewrite lookup_insert_ne.
Qed.

Lemma orElse_nonempty (text : option string) (fallback : string) :
  fallback <> "" -> orElse text fallback <> "".
Proof.
  intros Hf. unfold orElse. destruct text as [s|]; [|done].
  destruct (String.eqb s "") eqn:He; [done|]. by apply String.eqb_neq in He.
Qed.

Lemma mapItems_hasText (now : Z) (random : nat -> string) (negeriId : string)
    (items : list (option KamusApiResponse.t)) :
  Forall hasText (mapItems now random negeriId items).
Proof.
  apply Forall_lookup. intros i kamus Hi.
  rewrite mapItems_lookup in Hi.
  destruct (items !! i) as [item|]; [|done]. simpl in Hi. injection Hi as <-.
  destruct (mapApiResponseToKamus now item) as [mapped|error] eqn:Hmap.
  - unfold mapApiResponseToKamus in Hmap. destruct item as [r|]; [|done].
    destruct (stringOrElse (KamusApiResponse.id r) _); [|done].
    destruct (stringOrElse (KamusApiResponse.negeri_id r) _); [|done].
    injection Hmap as <-. simpl.
    split; [by apply orElse_nonempty|]. split; [by apply orElse_nonempty|].
    eexists. split; [done|]. by apply orElse_nonempty.
  - split; [done|]. split; [done|]. by eexists.
Qed.

Lemma processResponse_hasText (now' : Z) (random : nat -> string) (negeriId : string)
    (response : Result Payload) (kamusList : list Kamus.t) :
  processResponse now' random negeriId response = Ok kamusList ->
  Forall hasText kamusList.
Proof.
  destruct response as [[|items|item|]|e]; simpl; try done;
    intros [= <-]; apply mapItems_hasText.
Qed.

Lemma getAllKamus_keeps_text (now now' : Z) (random : nat -> string)
    (response : Result Payload) (st : State) :
  allHaveText st -> allHaveText (getAllKamus now now' random response st).1.2.
Proof.
  intros [Hlist Hregions]. unfold getAllKamus.
  destruct (processResponse now' random "0" response) as [l|e] eqn:Hp.
  - apply processResponse_hasText in Hp.
    destruct (kamusCache st) as [c|];
      [destruct (isCacheValid now (Some c)); [done|]|]; by split.
  - destruct (kamusCache st) as [c|] eqn:Hc;
      [destruct (isCacheValid now (Some c))|]; by split.
Qed.

Lemma exec_keeps_text (st : State) (call : Call) :
  allHaveText st -> allHaveText (exec st call).
Proof.
  intros Htext. pose proof Htext as [Hlist Hregions].
  destruct call as [now now' random response
                   |id now now' random response
                   |negeriId now now' random response
                   |keyword now now' random response
                   | |negeriId]; cbn [exec].
  - by apply getAllKamus_keeps_text.
  - unfold getKamusById.
    pose proof (getAllKamus_keeps_text now now' random response st Htext) as Hall.
    destruct (getAllKamus now now' random response st) as [[[all|e] st1] f];
      simpl in Hall; repeat case_match; simplify_eq/=; done.
  - unfold getKamusByNegeriId.
    destruct (processResponse now' random negeriId response) as [l|e] eqn:Hp.
    + apply processResponse_hasText in Hp.
      assert (allHaveText
                {| kamusCache := kamusCache st;
                   kamusByNegeriCache :=
                     <[negeriId := {| data := l; timestamp := now' |}]>
                       (kamusByNegeriCache st);
                   searchIndex := searchIndex st |}) as Hnew.
      { split; [done|]. simpl. by apply map_Forall_insert_2. }
      repeat case_match; simplify_eq/=; done.
    + repeat case_match; simplify_eq/=; done.
  - unfold searchKamus.
    pose proof (getAllKamus_keeps_text now now' random response st Htext) as Hall.
    destruct (getAllKamus now now' random response st) as [[[all|e] st1] f];
      simpl in Hall; unfold ensureIndex; repeat case_match; simplify_eq/=; done.
  - split; [constructor|]. simpl. apply map_Forall_empty.
  - split; [done|]. simpl. by apply map_Forall_delete.
Qed.

(** Whatever calls are made on the repository, and whatever well-typed
    answers the gateway gives (rejections, falsy and primitive bodies, and
    lists of records whose text fields are strings or absent, as the
    interface declares them), every entry the repository holds, in the
    full list or in the list of a region, has a word, a meaning and a
    region name that are not empty: missing or empty fields are replaced
    when a record is mapped, and a record that cannot be mapped gives a
    placeholder. *)
Theorem cached_entries_always_have_text (calls : list Call) :
  allHaveText (after calls).
Proof.
  unfold after.
  assert (forall st, allHaveText st -> allHaveText (foldl exec st calls)) as Hfold.
  { induction calls as [|call calls IH]; intros st Hst; [done|].
    simpl. apply IH. by apply exec_keeps_text. }
  apply Hfold. split; [constructor|]. simpl. apply map_Forall_empty.
Qed.

End KamusSequences.

(* ===================================================================== *)
(** ** Regions: fallbacks, write-through and clearing *)
(* ===================================================================== *)

Section NegeriSequences.
Import Js NegeriRepositoryImpl.

Lemma negeri_findById_some (id : string) (l : list Negeri.t) (negeri : Negeri.t) :
  findById id l = Some negeri -> Negeri.id negeri = id /\ negeri ∈ l.
Proof.
  intros Hf. apply find_some in Hf as [Hin Heq].
  apply String.eqb_eq in Heq. split; [done|]. by apply list_elem_of_In.
Qed.

Lemma negeri_findById_none (id : string) (l : list Negeri.t) :
  findById id l = None -> forall negeri, negeri ∈ l -> Negeri.id negeri <> id.
Proof.
  intros Hf negeri Hin Heq. apply list_elem_of_In in Hin.
  pose proof (find_none _ _ Hf negeri Hin) as Hneq. simpl in Hneq.
  apply String.eqb_neq in Hneq. done.
Qed.

(** What [getAllNegeri] leaves behind when it returns: what it returned is
    what the repository then holds as its list, and no per-id entry was
    dropped. *)
Lemma getAllNegeri_ok (now now' : Z) (response : Result (option (list Negeri.t)))
    (st st' : State) (allNegeri : option (list Negeri.t)) (fetches : list string) :
  getAllNegeri now now' response st = (Ok allNegeri, st', fetches) ->
  (exists c, negeriCache st' = Some c /\ data c = allNegeri)
  /\ (forall k, is_Some (negeriByIdCache st !! k) -> is_Some (negeriByIdCache st' !! k)).
Proof.
  unfold getAllNegeri.
  assert (forall l,
            (exists c, negeriCache
                         (foldl (fun s negeri =>
                                   setById (Negeri.id negeri) (Some negeri) now' s)
                            {| negeriCache := Some {| data := Some l; timestamp := now' |};
                               negeriByIdCache := negeriByIdCache st |} l) = Some c
                       /\ data c = Some l)
            /\ (forall k, is_Some (negeriByIdCache st !! k) ->
                  is_Some (negeriByIdCache
                             (foldl (fun s negeri =>
                                       setById (Negeri.id negeri) (Some negeri) now' s)
                                {| negeriCache :=
                                     Some {| data := Some l; timestamp := now' |};
                                   negeriByIdCache := negeriByIdCache st |} l) !! k)))
    as Hfetched.
  { intros l. split.
    - rewrite foldl_setById_negeriCache. simpl. by eexists.
    - intros k Hk.
      destruct (foldl_setById_lookup now' l
                  {| negeriCache := Some {| data := Some l; timestamp := now' |};
                     negeriByIdCache := negeriByIdCache st |} k)
        as [(negeri & _ & _ & ->)|[_ ->]]; [by eexists|done]. }
  destruct (negeriCache st) as [c|] eqn:Hc.
  - destruct (isCacheValid now (Some c)).
    + intros [= <- <- <-]. split; [by exists c|done].
    + destruct response as [[l|]|e].
      * intros [= <- <- <-]. apply Hfetched.
      * intros [= <- <- <-]. split; [by eexists|done].
      * intros [= <- <- <-]. split; [by exists c|done].
  - destruct response as [[l|]|e]; [| |done].
    + intros [= <- <- <-]. apply Hfetched.
    + intros [= <- <- <-]. split; [by eexists|done].
Qed.

(** [getAllNegeri] falls back on the cached list: when the fetch fails,
    the cached list, expired or not, is returned and the state is left as
    it was; an error comes out exactly when no list is cached and the
    fetch fails. Per-id entries are no fallback for the list. *)
Theorem getAllNegeri_falls_back_to_cached_list (now now' : Z) (error : Error)
    (st : State) :
  getAllNegeri now now' (Throw error) st
  = match negeriCache st with
    | Some c => (Ok (data c), st, if isCacheValid now (Some c) then [] else [NEGERI])
    | None => (Throw error, st, [NEGERI])
    end
  /\ forall response,
       isOk (getAllNegeri now now' response st).1.1 = false <->
       negeriCache st = None /\ isOk response = false.
Proof.
  split.
  - unfold getAllNegeri. destruct (negeriCache st) as [c|]; [|done].
    by destruct (isCacheValid now (Some c)).
  - intros response. unfold getAllNegeri. destruct (negeriCache st) as [c|].
    + destruct (isCacheValid now (Some c)); [simpl; split; [done|by intros [? _]]|].
      destruct response as [[l|]|e]; simpl; (split; [done|by intros [? _]]).
    + destruct response as [[l|]|e]; simpl; split; try done; by intros [_ ?].
Qed.

(** After a fetch of the full list that succeeded, looking up the id of
    any region of that list within the expiration window is answered from
    the per-id cache: a region of the list with that id is returned, with
    no fetch and no change of state. *)
Theorem getNegeriById_after_getAllNegeri (now now' now0 now1 now2 : Z)
    (negeriList : list Negeri.t) (st : State) (negeri : Negeri.t)
    (pointResponse : Result (option Negeri.t))
    (listResponse : Result (option (list Negeri.t))) :
  isCacheValid now (negeriCache st) = false ->
  negeri ∈ negeriList ->
  now0 - now' < cacheExpirationTime ->
  let st' := (getAllNegeri now now' (Ok (Some negeriList)) st).1.2 in
  exists stored,
    stored ∈ negeriList /\ Negeri.id stored = Negeri.id negeri
    /\ getNegeriById (Negeri.id negeri) now0 now1 now2 pointResponse listResponse st'
       = (Ok (Some stored), st', []).
Proof.
  intros Hinvalid Hin Hfresh st'.
  assert (st' = foldl (fun s n => setById (Negeri.id n) (Some n) now' s)
                  {| negeriCache := Some {| data := Some negeriList; timestamp := now' |};
                     negeriByIdCache := negeriByIdCache st |} negeriList) as Hst'.
  { subst st'. unfold getAllNegeri. rewrite Hinvalid. by destruct (negeriCache st). }
  destruct (foldl_setById_lookup now' negeriList
              {| negeriCache := Some {| data := Some negeriList; timestamp := now' |};
                 negeriByIdCache := negeriByIdCache st |} (Negeri.id negeri))
    as [(stored & Hs & Hid & Hlook)|[Hnone _]]; [|by destruct (Hnone negeri Hin)].
  rewrite <- Hst' in Hlook.
  exists stored. split; [done|]. split; [done|].
  unfold getNegeriById. rewrite Hlook.
  assert (isCacheValid now0 (Some {| data := Some stored; timestamp := now' |}) = true)
    as -> by (apply negeri_isCacheValid_iff; exact Hfresh).
  done.
Qed.

Lemma getNegeriById_after_getAllNegeri_witness :
  exists stored,
    stored ∈ [Scenario.perak] /\ Negeri.id stored = "7"
    /\ getNegeriById "7" 60000 60001 60002 (Throw Scenario.networkError)
         (Throw Scenario.networkError)
         (getAllNegeri 0 1 (Ok (Some [Scenario.perak])) initial).1.2
       = (Ok (Some stored),
          (getAllNegeri 0 1 (Ok (Some [Scenario.perak])) initial).1.2, []).
Proof.
  apply (getNegeriById_after_getAllNegeri 0 1 60000 60001 60002 [Scenario.perak]
           initial Scenario.perak).
  - reflexivity.
  - apply list_elem_of_here.
  - vm_compute. reflexivity.
Defined.

(** What the outcomes of [getNegeriById] mean. A region that is returned
    is afterwards cached under the id that was asked for. [null] means
    that [null] is cached under the id (a direct fetch that was superseded
    resolved with it), or that the direct fetch failed and the full list
    the repository then holds has no region with the id. An error means
    that no per-id entry was or is cached and that either the repository
    holds [null] as its full list, which cannot be scanned, or every
    source failed: no list was cached, both fetches failed, the state is as
    it was, and the error is that of the list fetch. *)
Theorem getNegeriById_result (id : string) (now0 now1 now2 : Z)
    (pointResponse : Result (option Negeri.t))
    (listResponse : Result (option (list Negeri.t)))
    (st st' : State) (result : Result (option Negeri.t)) (fetches : list string) :
  getNegeriById id now0 now1 now2 pointResponse listResponse st = (result, st', fetches) ->
  match result with
  | Ok (Some negeri) =>
      exists entry, negeriByIdCache st' !! id = Some entry /\ data entry = Some negeri
  | Ok None =>
      (exists entry, negeriByIdCache st' !! id = Some entry /\ data entry = None)
      \/ (isOk pointResponse = false
          /\ exists c l, negeriCache st' = Some c /\ data c = Some l
                         /\ forall negeri, negeri ∈ l -> Negeri.id negeri <> id)
  | Throw error =>
      negeriByIdCache st !! id = None /\ negeriByIdCache st' !! id = None
      /\ ((error = nullTypeError
           /\ exists c, negeriCache st' = Some c /\ data c = None)
          \/ (isOk pointResponse = false /\ listResponse = Throw error
              /\ negeriCache st = None /\ st' = st
              /\ fetches = [NEGERI_BY_ID id; NEGERI]))
  end.
Proof.
  set (outcome := fun (r : Result (option Negeri.t)) (s : State) (f : list string) =>
         match r with
         | Ok (Some negeri) =>
             exists entry, negeriByIdCache s !! id = Some entry /\ data entry = Some negeri
         | Ok None =>
             (exists entry, negeriByIdCache s !! id = Some entry /\ data entry = None)
             \/ (isOk pointResponse = false
                 /\ exists c l, negeriCache s = Some c /\ data c = Some l
                                /\ forall negeri, negeri ∈ l -> Negeri.id negeri <> id)
         | Throw error =>
             negeriByIdCache st !! id = None /\ negeriByIdCache s !! id = None
             /\ ((error = nullTypeError
                  /\ exists c, negeriCache s = Some c /\ data c = None)
                 \/ (isOk pointResponse = false /\ listResponse = Throw error
                     /\ negeriCache st = None /\ s = st
                     /\ f = [NEGERI_BY_ID id; NEGERI]))
         end).
  change (getNegeriById id now0 now1 now2 pointResponse listResponse st
          = (result, st', fetches) -> outcome result st' fetches).
  assert (forall negeri now s, outcome (Ok negeri) (setById id negeri now s) [])
    as Hset.
  { intros [negeri|] now s; simpl; [|left]; rewrite lookup_insert_eq; by eexists. }
  assert (forall negeri now s f, outcome (Ok negeri) (setById id negeri now s) f)
    as Hset'.
  { intros [negeri|] now s f; simpl; [|left]; rewrite lookup_insert_eq; by eexists. }
  assert (forall entry s f,
            negeriByIdCache s !! id = Some entry -> outcome (Ok (data entry)) s f)
    as Hentry.
  { intros entry s f He. simpl. destruct (data entry) as [negeri|] eqn:Hd.
    - by exists entry.
    - left. by exists entry. }
  assert (forall r s f,
            fetchDirect id now1 now2 pointResponse listResponse st = (r, s, f) ->
            outcome r s f) as Hdirect.
  { intros r s f. unfold fetchDirect. destruct pointResponse as [negeri|directError].
    - intros [= <- <- <-]. apply Hset'.
    - unfold fallBackToFullList.
      destruct (getAllNegeri now1 now2 listResponse st) as [[[all|e] s1] f1] eqn:Hall.
      + destruct (getAllNegeri_ok _ _ _ _ _ _ _ Hall) as [(c & Hc & Hdata) Hmono].
        destruct all as [l|]; simpl.
        * destruct (findById id l) as [found|] eqn:Hfind.
          -- intros [= <- <- <-]. apply (Hset' (Some found)).
          -- intros [= <- <- <-]. right. split; [done|]. exists c, l.
             split; [done|]. split; [done|]. by apply negeri_findById_none.
        * unfold staleOrThrow.
          destruct (negeriByIdCache s1 !! id) as [stale|] eqn:Hstale.
          -- intros [= <- <- <-]. by apply Hentry.
          -- intros [= <- <- <-]. split; [|split; [done|]].
             ++ destruct (negeriByIdCache st !! id) as [e0|] eqn:He0; [|done].
                destruct (Hmono id) as [x Hx]; [by eexists|]. congruence.
             ++ left. split; [done|]. by exists c.
      + apply getAllNegeri_throws_iff in Hall as (Hnone & -> & -> & ->).
        unfold staleOrThrow.
        destruct (negeriByIdCache st !! id) as [stale|] eqn:Hstale.
        * intros [= <- <- <-]. by apply Hentry.
        * intros [= <- <- <-]. split; [done|]. split; [done|]. right. done. }
  assert (forall r s f,
            match fromMainCache id now0 st with
            | Ok (Some cachedNegeri) =>
                (Ok (Some cachedNegeri), setById id (Some cachedNegeri) now0 st, [])
            | Ok None => fetchDirect id now1 now2 pointResponse listResponse st
            | Throw error => staleOrThrow id error st []
            end = (r, s, f) -> outcome r s f) as Hafter.
  { intros r s f. unfold fromMainCache.
    destruct (negeriCache st) as [c|] eqn:Hc; [|apply Hdirect].
    destruct (isCacheValid now0 (Some c)); [|apply Hdirect].
    destruct (data c) as [l|] eqn:Hl; simpl.
    - destruct (findById id l) as [found|]; [|apply Hdirect].
      intros [= <- <- <-]. apply (Hset (Some found)).
    - unfold staleOrThrow. destruct (negeriByIdCache st !! id) as [stale|] eqn:Hstale.
      + intros [= <- <- <-]. by apply Hentry.
      + intros [= <- <- <-]. split; [done|]. split; [done|]. left.
        split; [done|]. by exists c. }
  unfold getNegeriById.
  destruct (negeriByIdCache st !! id) as [entry|] eqn:He; [|apply Hafter].
  destruct (isCacheValid now0 (Some entry)); [|apply Hafter].
  intros [= <- <- <-]. by apply Hentry.
Qed.

(** When both fetches fail and only the per-id entry of the region is
    cached, stale, the region comes back and is still cached. *)
Lemma getNegeriById_result_witness :
  exists entry,
    negeriByIdCache Scenario.onlyPerakById !! "7" = Some entry
    /\ data entry = Some Scenario.perak.
Proof.
  apply (getNegeriById_result "7" 1000000 1000001 1000002 (Throw Scenario.networkError)
           (Throw Scenario.networkError) Scenario.onlyPerakById Scenario.onlyPerakById
           (Ok (Some Scenario.perak)) [NEGERI_BY_ID "7"; NEGERI]).
  vm_compute. reflexivity.
Defined.

(** Clearing the per-id entry of a region forces no fetch while the full
    list is valid and has the region: the next look-up finds it in the
    list, returns it with no fetch and stores the per-id entry again. *)
Theorem clearNegeriCache_is_refilled_from_the_list (id : string) (now0 now1 now2 : Z)
    (pointResponse : Result (option Negeri.t))
    (listResponse : Result (option (list Negeri.t)))
    (st : State) (c : CacheEntry (option (list Negeri.t))) (l : list Negeri.t)
    (found : Negeri.t) :
  negeriCache st = Some c ->
  now0 - timestamp c < cacheExpirationTime ->
  data c = Some l ->
  findById id l = Some found ->
  getNegeriById id now0 now1 now2 pointResponse listResponse (clearNegeriCache id st)
  = (Ok (Some found), setById id (Some found) now0 st, []).
Proof.
  intros Hc Hfresh Hl Hfind.
  unfold getNegeriById, fromMainCache. simpl.
  rewrite lookup_delete_eq, Hc.
  assert (isCacheValid now0 (Some c) = true) as ->
    by (apply negeri_isCacheValid_iff; exact Hfresh).
  rewrite Hl. simpl. rewrite Hfind. unfold setById. simpl. by rewrite insert_delete_eq.
Qed.

Lemma clearNegeriCache_is_refilled_from_the_list_witness :
  let st := (getAllNegeri 0 1 (Ok (Some [Scenario.perak])) initial).1.2 in
  getNegeriById "7" 60000 60001 60002 (Throw Scenario.networkError)
    (Throw Scenario.networkError) (clearNegeriCache "7" st)
  = (Ok (Some Scenario.perak), setById "7" (Some Scenario.perak) 60000 st, []).
Proof.
  apply (clearNegeriCache_is_refilled_from_the_list "7" 60000 60001 60002
           (Throw Scenario.networkError) (Throw Scenario.networkError)
           (getAllNegeri 0 1 (Ok (Some [Scenario.perak])) initial).1.2
           {| data := Some [Scenario.perak]; timestamp := 1 |} [Scenario.perak]
           Scenario.perak).
  - reflexivity.
  - vm_compute. reflexivity.
  - reflexivity.
  - reflexivity.
Defined.

End NegeriSequences.

(* ===================================================================== *)
(** ** The gateway: what a GET stores and what it leaves alone *)
(* ===================================================================== *)

Section GatewayRoundTrip.
Import Js ApiClient.

(** What the cache holds under the key of a GET that went to the network
    and got a response, without skipping the cache. *)
Lemma get_stores_under_its_key (url : string) (params : option string)
    (cacheOptions : option CacheOptions) (now now' : Z) (requestCache cache' : Cache)
    (body : JValue) :
  skips cacheOptions = false ->
  settle (get url params cacheOptions now requestCache) now' (Ok body)
  = (Ok body, cache', [url]) ->
  cache' !! cacheKeyOf url params
  = Some {| data := body; timestamp := now';
            expiresAt := now' + expirationOrDefault (expirationOf cacheOptions) |}.
Proof.
  intros Hskip.
  destruct (get_cases url params cacheOptions now requestCache)
    as [(d & -> & _)|(cache1 & -> & _)]; simpl; [done|].
  rewrite Hskip. intros [= <-]. unfold setCacheData. by rewrite lookup_insert_eq.
Qed.

(** A response that a GET stored is served to later GETs of the same url
    and parameters until its window has passed, with no request, provided
    the body is truthy; a falsy body (null, false, 0, the empty string) is
    stored but never served this way, so every such GET goes to the
    network. Once the window has passed, the entry is evicted and the
    request is made. *)
Theorem get_serves_what_it_stored (url : string) (params : option string)
    (cacheOptions later : option CacheOptions) (now now' now2 : Z)
    (requestCache cache' : Cache) (body : JValue) :
  skips cacheOptions = false ->
  skips later = false ->
  settle (get url params cacheOptions now requestCache) now' (Ok body)
  = (Ok body, cache', [url]) ->
  (now2 < now' + expirationOrDefault (expirationOf cacheOptions) ->
   get url params later now2 cache'
   = if truthy body then Returned (Ok body) cache'
     else Awaiting url cache' (getAfterAwait url params later))
  /\ (now' + expirationOrDefault (expirationOf cacheOptions) <= now2 ->
      get url params later now2 cache'
      = Awaiting url (delete (cacheKeyOf url params) cache')
          (getAfterAwait url params later)).
Proof.
  intros Hskip Hlater Hfetched.
  pose proof (get_stores_under_its_key _ _ _ _ _ _ _ _ Hskip Hfetched) as Hstored.
  unfold get, getValidCacheData. rewrite Hlater, Hstored. simpl. split.
  - intros Hfresh. apply Z.ltb_lt in Hfresh. rewrite Hfresh.
    by destruct (truthy body).
  - intros Hexpired. apply Z.ltb_ge in Hexpired. by rewrite Hexpired.
Qed.

(** The regions list fetched at time 1 and asked for again after four
    minutes: no request; after five minutes and a millisecond: a request. *)
Lemma get_serves_what_it_stored_witness :
  let body := JArray [JString "Johor"] in
  let cache' := setCacheData "/negeri" body None 1 ∅ in
  get "/negeri" None None 240000 cache' = Returned (Ok body) cache'
  /\ get "/negeri" None None 300001 cache'
     = Awaiting "/negeri" (delete "/negeri" cache') (getAfterAwait "/negeri" None None).
Proof.
  split.
  - refine (proj1 (get_serves_what_it_stored "/negeri" None None None 0 1 240000 ∅
                     (setCacheData "/negeri" (JArray [JString "Johor"]) None 1 ∅)
                     (JArray [JString "Johor"]) _ _ _) _); reflexivity.
  - refine (proj2 (get_serves_what_it_stored "/negeri" None None None 0 1 300001 ∅
                     (setCacheData "/negeri" (JArray [JString "Johor"]) None 1 ∅)
                     (JArray [JString "Johor"]) _ _ _) _);
      [reflexivity..|vm_compute; discriminate].
Defined.

(** A GET, whatever it finds and however its request settles, leaves the
    entries of all other cache keys as they were. *)
Theorem get_touches_only_its_own_key (url : string) (params : option string)
    (cacheOptions : option CacheOptions) (now now' : Z) (response : Result JValue)
    (requestCache : Cache) (other : string) :
  other <> cacheKeyOf url params ->
  (settle (get url params cacheOptions now requestCache) now' response).1.2 !! other
  = requestCache !! other.
Proof.
  intros Hother.
  assert ((getValidCacheData (cacheKeyOf url params) now requestCache).2 !! other
          = requestCache !! other) as Hvalid.
  { unfold getValidCacheData.
    destruct (requestCache !! cacheKeyOf url params) as [e|]; [|done].
    destruct (now <? expiresAt e); [done|]. simpl. by rewrite lookup_delete_ne. }
  destruct (get_cases url params cacheOptions now requestCache)
    as [(d & -> & _)|(cache1 & -> & ->)]; simpl; [done|].
  unfold getAfterAwait.
  destruct response as [body|error].
  - simpl. destruct (skips cacheOptions); [done|].
    unfold setCacheData. by rewrite lookup_insert_ne.
  - destruct (skips cacheOptions).
    + by destruct (requestCache !! cacheKeyOf url params).
    + destruct ((getValidCacheData (cacheKeyOf url params) now requestCache).2
                  !! cacheKeyOf url params); done.
Qed.

(** A failed GET of the entries leaves the cached regions in place. *)
Lemma get_touches_only_its_own_key_witness :
  (settle (get "/kamus" None None 400000 Scenario.twoResources) 400001
     (Throw Scenario.networkError)).1.2 !! "/negeri"
  = Scenario.twoResources !! "/negeri".
Proof.
  apply (get_touches_only_its_own_key "/kamus" None None 400000 400001
           (Throw Scenario.networkError) Scenario.twoResources "/negeri").
  discriminate.
Defined.

End GatewayRoundTrip.
